(** * The Go-template renderer: scoping, ordering and diagnostics

    A shallow embedding of the rendering engine ([renderer/engine.go]), of its
    value tables ([renderer/chartvalues.go] and the [releasevalues] package)
    and of the few functions of Go's [strings] and [path] packages the engine
    calls, followed by the properties of the specification.

    Go strings are byte strings and are modelled by [string]; Go maps by
    stdpp's [gmap]; a Go pair [(x, error)] by a pair whose second component
    is an [option]. *)

From Stdlib Require Import ZArith String Ascii List Lia Permutation Sorted.
From stdpp Require Import base gmap strings list fin_maps.

#[local] Open Scope string_scope.
#[local] Set Warnings "-register-all".
#[local] Arguments String.append !_ _ : simpl nomatch.

(* ================================================================== *)
(** * Part I: definitions                                              *)
(* ================================================================== *)

(** ** Go's [strings] and [path] packages *)

(** [s[n:]] *)
Fixpoint string_drop (n : nat) (s : string) : string :=
  match n, s with
  | O, _ => s
  | S _, EmptyString => EmptyString
  | S k, String _ s' => string_drop k s'
  end.

(** [strings.HasPrefix(s, prefix)] *)
Definition HasPrefix (s pre : string) : bool := String.prefix pre s.

(** The first occurrence of [sep] in [s]: the text before it and the text
    after it ([strings.Cut]; [strings.Index] is the length of the first
    component). *)
Fixpoint Cut (s sep : string) : option (string * string) :=
  if String.prefix sep s then Some (EmptyString, string_drop (String.length sep) s)
  else
    match s with
    | EmptyString => None
    | String c s' =>
        match Cut s' sep with
        | Some (a, b) => Some (String c a, b)
        | None => None
        end
    end.

(** The last occurrence of [sep] in [s] ([strings.LastIndex]). *)
Fixpoint CutLast (s sep : string) : option (string * string) :=
  match s with
  | EmptyString =>
      if String.prefix sep EmptyString then Some (EmptyString, EmptyString) else None
  | String c s' =>
      match CutLast s' sep with
      | Some (a, b) => Some (String c a, b)
      | None =>
          if String.prefix sep s
          then Some (EmptyString, string_drop (String.length sep) s)
          else None
      end
  end.

(** [strings.Contains(s, substr)] *)
Definition Contains (s sub : string) : bool :=
  match Cut s sub with Some _ => true | None => false end.

(** The loop of [strings.Count] for a non-empty pattern: occurrences are
    counted from the left and do not overlap. *)
Fixpoint countLoop (fuel : nat) (s sep : string) : nat :=
  match fuel with
  | O => O
  | S k =>
      match Cut s sep with
      | None => O
      | Some (_, rest) => S (countLoop k rest sep)
      end
  end.

(** [strings.Count(s, substr)], for a non-empty [substr] (every call of the
    engine passes a literal). *)
Definition Count (s sep : string) : nat := countLoop (String.length s) s sep.

(** The loop of [strings.genSplit]: at most [cuts] separators are consumed,
    the remainder is the last element. *)
Fixpoint genSplit (cuts : nat) (s sep : string) : list string :=
  match cuts with
  | O => [s]
  | S k =>
      match Cut s sep with
      | None => [s]
      | Some (a, rest) => a :: genSplit k rest sep
      end
  end.

(** [strings.Split(s, sep)] for a non-empty [sep]. Go allows [Count(s, sep)]
    cuts and leaves the loop at the first miss; allowing [len(s)] cuts gives
    the same slice. *)
Definition Split (s sep : string) : list string := genSplit (String.length s) s sep.

(** [strings.SplitN(s, sep, n)] for [n > 0] and a non-empty [sep]. *)
Definition SplitN (s sep : string) (n : nat) : list string := genSplit (n - 1) s sep.

(** [strings.Join(elems, sep)] *)
Fixpoint Join (elems : list string) (sep : string) : string :=
  match elems with
  | [] => EmptyString
  | [x] => x
  | x :: rest => x ++ sep ++ Join rest sep
  end.

(** The loop of [strings.Replace]. *)
Fixpoint replaceLoop (fuel : nat) (s old new : string) : string :=
  match fuel with
  | O => s
  | S k =>
      match Cut s old with
      | None => s
      | Some (a, rest) => a ++ new ++ replaceLoop k rest old new
      end
  end.

(** [strings.ReplaceAll(s, old, new)] for a non-empty [old]. *)
Definition ReplaceAll (s old new : string) : string :=
  replaceLoop (String.length s) s old new.

(** Whether the byte [c] occurs in [s]. *)
Fixpoint occursIn (c : ascii) (s : string) : bool :=
  match s with
  | EmptyString => false
  | String d s' => Ascii.eqb c d || occursIn c s'
  end.

(** A separator whose first byte does not occur again in it: two of its
    occurrences in a text cannot overlap. The separators of the engine
    (": ", the two delimiters, the placeholder) are of this kind. *)
Definition unbordered (sep : string) : bool :=
  match sep with
  | EmptyString => false
  | String h t => negb (occursIn h t)
  end.


(** [strings.Compare(a, b) == -1] *)
Definition CompareLt (a b : string) : bool :=
  match String.compare a b with Lt => true | _ => false end.

Definition slash : ascii := "/"%char.

(** [path.Base]: the trailing slashes are removed, then everything up to the
    last slash. *)
Fixpoint stripTrailingSlashes (s : string) : string :=
  match s with
  | EmptyString => EmptyString
  | String c s' =>
      match stripTrailingSlashes s' with
      | EmptyString => if Ascii.eqb c slash then EmptyString else String c EmptyString
      | r => String c r
      end
  end.

Fixpoint lastElement (cur s : string) : string :=
  match s with
  | EmptyString => cur
  | String c s' =>
      if Ascii.eqb c slash then lastElement EmptyString s'
      else lastElement (cur ++ String c EmptyString) s'
  end.

Definition Base (p : string) : string :=
  match p with
  | EmptyString => "."
  | _ =>
      match lastElement EmptyString (stripTrailingSlashes p) with
      | EmptyString => "/"
      | e => e
      end
  end.

(** ** Value tables ([type Values map[string]any]) *)

(** The dynamic types a value of type [any] takes in the engine. A table is
    either a plain [map[string]interface{}] (what decoding produces) or a map
    of the named type [Values]; Go's type assertions tell the two apart, and
    so does the model. *)
Inductive value : Type :=
| VNil
| VBool (b : bool)
| VNum (n : Z)
| VStr (s : string)
| VList (l : list value)
| VMap (m : gmap string value)
| VValues (m : gmap string value)
| VChart (name type : string) (isRoot : bool)
| VFiles (files : list (string * string)).

Abbreviation Values := (gmap string value).

(** The errors of the value tables: [ErrNoTable] is declared in
    [chartvalues.go]; [ErrText] is an error made by [errors.New].

    Modelled from the spec: the declaration of [ErrNoValue] is not among the
    sources; it is the "no such value" error, named by a key as [ErrNoTable]
    is. *)
Inductive error : Type :=
| ErrNoTable (key : string)
| ErrNoValue (key : string)
| ErrText (msg : string).

(** [parsePath] of [chartvalues.go]. *)
Definition ParsePath (key : string) : list string := Split key ".".

(** Modelled from the spec: [JoinPath] is not among the sources; a path is
    its segments separated by dots, what [ParsePath] splits. *)
Definition JoinPath (elems : list string) : string := Join elems ".".

Definition tableLookup (v : Values) (simple : string) : Values * option error :=
  match v !! simple with
  | None => (v, Some (ErrNoTable simple))
  | Some (VMap vv) => (vv, None)
  | Some (VValues vv) => (vv, None)
  | Some _ => (∅, Some (ErrNoTable simple))
  end.

Fixpoint tableLoop (table : Values) (names : list string) : Values * option error :=
  match names with
  | [] => (table, None)
  | n :: rest =>
      match tableLookup table n with
      | (t, Some e) => (t, Some e)
      | (t, None) => tableLoop t rest
      end
  end.

Definition Table (v : Values) (name : string) : Values * option error :=
  tableLoop v (ParsePath name).

(** [IsTable]: the assertion [v.(map[string]interface{})]. *)
Definition IsTable (v : value) : bool :=
  match v with VMap _ => true | _ => false end.

(** The unexported [pathValue]. With an empty slice Go panics on
    [path[len(path)-1]]; [PathValue] never passes one. *)
Definition pathValue (v : Values) (path : list string) : value * option error :=
  match path with
  | [] => (VNil, Some (ErrText "index out of range"))
  | [p0] =>
      match v !! p0 with
      | Some x => if negb (IsTable x) then (x, None) else (VNil, Some (ErrNoValue p0))
      | None => (VNil, Some (ErrNoValue p0))
      end
  | _ =>
      let key := List.last path EmptyString in
      let path' := List.removelast path in
      match Table v (JoinPath path') with
      | (_, Some _) => (VNil, Some (ErrNoValue key))
      | (t, None) =>
          match t !! key with
          | Some k => if negb (IsTable k) then (k, None) else (VNil, Some (ErrNoValue key))
          | None => (VNil, Some (ErrNoValue key))
          end
      end
  end.

Definition PathValue (v : Values) (path : string) : value * option error :=
  if String.eqb path EmptyString
  then (VNil, Some (ErrText "YAML path cannot be empty"))
  else pathValue v (ParsePath path).

(** ** The chart tree ([helm.sh/helm/v4/pkg/chart]) *)

(** A template source of a chart ([chart.File]). *)
Record File : Type := { fileName : string; fileData : string }.

(** What the walker reads of a [*chart.Chart]: the metadata name and type,
    the template sources (with their nil entries), the files bundle and the
    dependencies. The parent pointer is represented by the position in the
    tree: the walker is handed the full path of the parent, or [None] at the
    root ([IsRoot] is [parent == nil]). A value of this type is a chart
    that is there and has its metadata; the pointers the entry point can be
    handed, nil ones included, are [chartPtr] below. *)
Inductive Chart : Type :=
  MkChart (name type : string) (templates : list (option File))
          (files : list (string * string)) (deps : list Chart).

Definition chartName (c : Chart) : string := let 'MkChart n _ _ _ _ := c in n.
Definition chartType (c : Chart) : string := let 'MkChart _ t _ _ _ := c in t.
Definition chartTemplates (c : Chart) : list (option File) :=
  let 'MkChart _ _ ts _ _ := c in ts.
Definition chartFiles (c : Chart) : list (string * string) :=
  let 'MkChart _ _ _ fs _ := c in fs.
Definition Dependencies (c : Chart) : list Chart := let 'MkChart _ _ _ _ ds := c in ds.

Definition IsRoot (parent : option string) : bool :=
  match parent with None => true | Some _ => false end.

(** [ChartFullPath]: the parent's full path, ["/charts/"], the name. *)
Definition ChartFullPath (parent : option string) (c : Chart) : string :=
  match parent with
  | None => chartName c
  | Some pp => pp ++ "/charts/" ++ chartName c
  end.

Definition lowerAscii (c : ascii) : ascii :=
  let n := nat_of_ascii c in
  if (65 <=? n)%nat && (n <=? 90)%nat then ascii_of_nat (n + 32) else c.

Fixpoint toLower (s : string) : string :=
  match s with
  | EmptyString => EmptyString
  | String c s' => String (lowerAscii c) (toLower s')
  end.

(** [strings.EqualFold] on ASCII text. *)
Definition EqualFold (a b : string) : bool := String.eqb (toLower a) (toLower b).

Definition isLibraryChart (c : Chart) : bool := EqualFold (chartType c) "library".

Definition isTemplateValid (c : Chart) (templateName : string) : bool :=
  if isLibraryChart c then HasPrefix (Base templateName) "_" else true.

(** ** Renderable entries and the scope store *)

(** The scope of a chart is one Go map, shared by reference by every
    renderable of that chart: the store holds the maps, a renderable holds
    the address of its scope ([None] is the nil map, the zero value of the
    field). *)
Definition loc := nat.

Record renderable : Type := { tpl : string; vals : option loc; basePath : string }.

Record walk : Type := {
  templates : gmap string renderable;
  scopes : gmap loc Values;
  nextLoc : loc
}.

(** [m[k]] on a Go map of [any]: nil when the key is absent. *)
Definition index (m : Values) (k : string) : value := default VNil (m !! k).

Section Walker.

(** [path.Join] of two elements (the cleaning of the path that Go performs
    is left to the instance). *)
Variable pathJoin : string -> string -> string.

(** The scope literal of [recAllTpls], before [Values] is resolved. *)
Definition scopeLiteral (parent : option string) (c : Chart) (vals : Values) : Values :=
  <["Chart" := VChart (chartName c) (chartType c) (IsRoot parent)]>
  (<["Files" := VFiles (chartFiles c)]>
  (<["Release" := index vals "Release"]>
  (<["Capabilities" := index vals "Capabilities"]>
  (<["chartutil.Values" := VValues ∅]>
  (<["Subcharts" := VMap ∅]> ∅))))).

(** The resolution of [next["Values"]]. *)
Definition resolveValues (parent : option string) (c : Chart) (vals next : Values) : Values :=
  if IsRoot parent then <["Values" := index vals "Values"]> next
  else
    match Table vals ("Values." ++ chartName c) with
    | (vs, None) => <["Values" := VValues vs]> next
    | (_, Some _) => next
    end.

(** The registration loop over [c.Templates]. *)
Fixpoint registerTemplates (c : Chart) (newParentID : string) (l : loc)
    (ts : list (option File)) (tm : gmap string renderable) : gmap string renderable :=
  match ts with
  | [] => tm
  | None :: ts' => registerTemplates c newParentID l ts' tm
  | Some t :: ts' =>
      if negb (isTemplateValid c (fileName t))
      then registerTemplates c newParentID l ts' tm
      else
        registerTemplates c newParentID l ts'
          (<[pathJoin newParentID (fileName t) :=
               {| tpl := fileData t; vals := Some l;
                  basePath := pathJoin newParentID "templates" |}]> tm)
  end.

(** [recAllTpls]. The children are handed [next] while its [Subcharts] map
    is still being filled; a child reads only [Release], [Capabilities] and
    [Values] of the scope it is handed, so the model hands it the scope with
    the empty [Subcharts] and stores the filled map at the end. A child's
    scope is recorded in [Subcharts] by value, as it is when the walk ends
    (the walk writes to no scope it has returned); in Go the entry is the
    child's map itself, so what is written to that map at render time is
    seen through the parent's [Subcharts] as well, which the record does
    not show. *)
Fixpoint recAllTpls (c : Chart) (parent : option string) (vals : Values) (st : walk)
    : Values * walk :=
  let next := resolveValues parent c vals (scopeLiteral parent c vals) in
  let l := nextLoc st in
  let st1 := {| templates := templates st; scopes := <[l := next]> (scopes st);
                nextLoc := S l |} in
  let newParentID := ChartFullPath parent c in
  let '(subCharts, st2) :=
    (fix children (cs : list Chart) (acc : Values) (s : walk) : Values * walk :=
       match cs with
       | [] => (acc, s)
       | child :: cs' =>
           let '(r, s') := recAllTpls child (Some newParentID) next s in
           children cs' (<[chartName child := VMap r]> acc) s'
       end) (Dependencies c) ∅ st1 in
  let next' := <["Subcharts" := VMap subCharts]> next in
  (next',
   {| templates := registerTemplates c newParentID l (chartTemplates c) (templates st2);
      scopes := <[l := next']> (scopes st2);
      nextLoc := nextLoc st2 |}).

Definition allTemplates (c : Chart) (vals : Values) : walk :=
  snd (recAllTpls c None vals {| templates := ∅; scopes := ∅; nextLoc := 0 |}).

End Walker.

(** [path.Join] on two clean, non-empty elements. *)
Definition joinClean (a b : string) : string := a ++ "/" ++ b.

(** ** Errors and their normalisation *)

(** A Go [error] of the engine: its text, and whether its dynamic type is
    [template.ExecError] (the assertion of [cleanupExecError]). *)
Record goError : Type := { isExecError : bool; errText : string }.

Definition plainError (msg : string) : goError :=
  {| isExecError := false; errText := msg |}.

Definition newline : string := String (ascii_of_nat 10) EmptyString.

(** [errors.Join]: nil values are dropped; nil when nothing is left. *)
Definition errorsJoin (errs : list (option goError)) : option goError :=
  match omap id errs with
  | [] => None
  | es => Some (plainError (Join (map errText es) newline))
  end.

Definition warnStartDelim : string := "HELM_ERR_START".
Definition warnEndDelim : string := "HELM_ERR_END".
Definition recursionMaxNums : Z := 1000.

Definition warnWrap (warn : string) : string := warnStartDelim ++ warn ++ warnEndDelim.

(** [warnRegex.FindStringSubmatch(s)[1]]. The expression is the start
    delimiter, a greedy group matching any text (newlines included), and the
    end delimiter: the match starts at the leftmost start delimiter and ends
    at the last end delimiter after it. [None] when there is no match. *)
Definition warnSubmatch (s : string) : option string :=
  match Cut s warnStartDelim with
  | None => None
  | Some (_, after) =>
      match CutLast after warnEndDelim with
      | None => None
      | Some (m, _) => Some m
      end
  end.

Definition cleanupParseError (filename : string) (err : goError) : goError :=
  let tokens := Split (errText err) ": " in
  match tokens with
  | [_] => plainError ("parse error in (" ++ filename ++ "): " ++ errText err)
  | _ =>
      let location := nth 1 tokens EmptyString in
      let errMsg := List.last tokens EmptyString in
      plainError ("parse error at (" ++ location ++ "): " ++ errMsg)
  end.

Definition cleanupExecError (filename : string) (err : goError) : goError :=
  if negb (isExecError err) then err
  else
    match SplitN (errText err) ": " 3 with
    | [_; location; rest] =>
        match warnSubmatch rest with
        | Some msg => plainError ("execution error at (" ++ location ++ "): " ++ msg)
        | None => err
        end
    | _ => plainError ("execution error in (" ++ filename ++ "): " ++ errText err)
    end.

(** ** The processing order *)

(** [byPathLen.Less] *)
Definition byPathLenLess (a b : string) : bool :=
  let ca := Count a "/" in
  let cb := Count b "/" in
  if (ca =? cb)%nat then CompareLt a b else (ca <? cb)%nat.

(** [sort.Reverse(x).Less(i, j)] is [x.Less(j, i)]. *)
Definition reverseLess (less : string -> string -> bool) (a b : string) : bool := less b a.

(** [sort.Sort] arranges the slice so that no element is [less] than one
    before it. Its algorithm is Go's; an insertion sort stands for it (for an
    order that is total on the keys there is one sorted arrangement only). *)
Fixpoint sortInsert (less : string -> string -> bool) (x : string) (l : list string)
    : list string :=
  match l with
  | [] => [x]
  | y :: l' => if less x y then x :: l else y :: sortInsert less x l'
  end.

Fixpoint sortSort (less : string -> string -> bool) (l : list string) : list string :=
  match l with
  | [] => []
  | x :: l' => sortInsert less x (sortSort less l')
  end.

(** The order the engine processes keys in: [a] comes before [b] when it has
    more separators, or as many and is the greater string. *)
Definition processedBefore (a b : string) : Prop :=
  (Count b "/" < Count a "/")%nat \/
  (Count a "/" = Count b "/" /\ String.compare a b = Gt).

(** The order as the specification words it: more separators first, then
    ascending lexicographic order. *)
Definition specifiedBefore (a b : string) : Prop :=
  (Count b "/" < Count a "/")%nat \/
  (Count a "/" = Count b "/" /\ String.compare a b = Lt).

(** The keys of the map, in the order the map yields them. *)
Definition mapKeys {A} (m : gmap string A) : list string := (map_to_list m).*1.

Definition sortTemplates (tpls : gmap string renderable) : list string :=
  sortSort (reverseLess byPathLenLess) (mapKeys tpls).

(** ** The renderer, over the template evaluator *)

(** How an execution of the evaluator ends. *)
Inductive execOutcome : Type :=
| ExecOk
| ExecFail (e : goError)
| ExecPanic (r : string).

Definition noValue : string := "<no value>".

Definition zeroRenderable : renderable :=
  {| tpl := EmptyString; vals := None; basePath := EmptyString |}.

Definition isPartial (filename : string) : bool := HasPrefix (Base filename) "_".

(** The errors of a list of calls of [renderTemplate]. *)
Definition traceErrors (tr : list (string * (string * option goError))) : list goError :=
  omap (fun x => snd (snd x)) tr.

Section Renderer.

(** The evaluator ([text/template]) is a capability of the engine: [T] is
    what [e.goTemplate] and the closures of the function map hold,
    [Parse t name text] is [t.New(name).Parse(text)] and
    [ExecuteTemplate t name l h] is [t.ExecuteTemplate(&buf, name, vals)]
    where [vals] is the map at the address [l] of the store [h]; it returns
    what was written to the buffer, how the execution ended, and the store
    it leaves (a function of the function map may write to the maps it is
    handed). *)
Variable T : Type.
Variable Parse : T -> string -> string -> T * option goError.
Variable ExecuteTemplate :
  T -> string -> loc -> gmap loc Values -> (string * execOutcome) * (T * gmap loc Values).

(** The engine's template namespace and the store of scope maps. *)
Definition state : Type := T * gmap loc Values.

Definition templateInfo (filename : string) (r : renderable) : value :=
  VValues (<["Name" := VStr filename]> (<["BasePath" := VStr (basePath r)]> ∅)).

(** [renderTemplate]. The assignment [vals["Template"] = ...] writes to the
    map [renderable.vals] refers to; on a nil map it panics, and the
    deferred function turns every panic into an error. *)
Definition renderTemplate (filename : string) (r : renderable) (st : state)
    : (string * option goError) * state :=
  let '(t, h) := st in
  match vals r with
  | None =>
      ((EmptyString,
        Some (plainError "rendering template failed: assignment to entry in nil map")), st)
  | Some l =>
      match h !! l with
      | None =>
          ((EmptyString,
            Some (plainError "rendering template failed: assignment to entry in nil map")), st)
      | Some scope =>
          let scope' := <["Template" := templateInfo filename r]> scope in
          let '((buf, outcome), st') := ExecuteTemplate t filename l (<[l := scope']> h) in
          match outcome with
          | ExecFail e => ((EmptyString, Some (cleanupExecError filename e)), st')
          | ExecPanic p =>
              ((EmptyString, Some (plainError ("rendering template failed: " ++ p))), st')
          | ExecOk => ((ReplaceAll buf noValue EmptyString, None), st')
          end
      end
  end.

(** The first loop of [renderTemplates]: every key is parsed, in order; the
    first failure ends the loop. *)
Fixpoint parseLoop (tpls : gmap string renderable) (keys : list string) (t : T)
    : T * option (string * goError) :=
  match keys with
  | [] => (t, None)
  | filename :: keys' =>
      let r := default zeroRenderable (tpls !! filename) in
      match Parse t filename (tpl r) with
      | (t', Some err) => (t', Some (filename, err))
      | (t', None) => parseLoop tpls keys' t'
      end
  end.

(** The second loop. *)
Fixpoint renderLoop (tpls : gmap string renderable) (keys : list string)
    (results : gmap string string) (errs : list (option goError)) (st : state)
    : (gmap string string * list (option goError)) * state :=
  match keys with
  | [] => ((results, errs), st)
  | filename :: keys' =>
      if isPartial filename then renderLoop tpls keys' results errs st
      else
        let r := default zeroRenderable (tpls !! filename) in
        let '((rendered, err), st') := renderTemplate filename r st in
        let errs' := match err with Some e => (errs ++ [Some e])%list | None => errs end in
        renderLoop tpls keys' (<[filename := rendered]> results) errs' st'
  end.

(** The calls of [renderTemplate] the second loop makes, in order, each
    with what it returned. *)
Fixpoint renderTrace (tpls : gmap string renderable) (keys : list string) (st : state)
    : list (string * (string * option goError)) :=
  match keys with
  | [] => []
  | filename :: keys' =>
      if isPartial filename then renderTrace tpls keys' st
      else
        let r := default zeroRenderable (tpls !! filename) in
        let '(res, st') := renderTemplate filename r st in
        (filename, res) :: renderTrace tpls keys' st'
  end.

Definition renderTemplates (tpls : gmap string renderable) (st : state)
    : (gmap string string * option goError) * state :=
  let keys := sortTemplates tpls in
  match parseLoop tpls keys (fst st) with
  | (t', Some (filename, err)) => ((∅, Some (cleanupParseError filename err)), (t', snd st))
  | (t', None) =>
      let '((results, errs), st') :=
        renderLoop tpls keys ∅ (replicate (size tpls) None) (t', snd st) in
      ((results, errorsJoin errs), st')
  end.

End Renderer.

(** ** The function extensions, over a model of template bodies *)

(** Where a call stands in a template, as the evaluator reports it:
    [file:line:col] and the text of the action. *)
Record site : Type := { location : string; context : string }.

(** What executing a parsed template does, as far as the engine can tell: it
    writes text, prints an absent map entry, or calls one of the functions
    the engine put in the function map and goes on with the result (which
    the rest of the pipeline prints or passes on). The first error of a
    function ends the execution. (Panics of the evaluator
    are left out of the bodies; [renderTemplate] handles them.) *)
Inductive tmpl : Type :=
| TDone
| TText (s : string) (k : tmpl)
| TMissingKey (at_ : site) (key : string) (k : tmpl)
| TInclude (at_ : site) (name : string) (data : value) (k : string -> tmpl)
| TTpl (at_ : site) (text : string) (data : value) (k : string -> tmpl)
| TRequired (at_ : site) (warn : string) (val : value) (k : value -> tmpl)
| TFail (at_ : site) (msg : string) (k : string -> tmpl).

(** A parsed template: its execution, given the data it is applied to. *)
Definition body : Type := value -> tmpl.

Abbreviation namespace := (gmap string body).

(** What [Parse] makes of a text: the body of the text itself and the
    templates it defines, or the evaluator's error text. *)
Inductive parsed : Type :=
| ParseOk (main : body) (defines : list (string * body))
| ParseErr (msg : string).

Record engineOptions : Type := { EnableDNS : bool; Strict : bool; LintMode : bool }.

(** The state the closures of the function map share: the nesting depth of
    [include] per template name, and what was written to the log. *)
Record fstate : Type := { includedNames : gmap string Z; logged : list string }.

(** [includedNames[name]], zero when the name has no entry. *)
Definition depth (st : fstate) (name : string) : Z :=
  default 0%Z (includedNames st !! name).

Definition setIncluded (name : string) (v : Z) (st : fstate) : fstate :=
  {| includedNames := <[name := v]> (includedNames st); logged := logged st |}.

Definition logPrint (line : string) (st : fstate) : fstate :=
  {| includedNames := includedNames st; logged := (logged st ++ [line])%list |}.

Definition dquote : string := String (ascii_of_nat 34) EmptyString.

Definition backslash : string := String (ascii_of_nat 92) EmptyString.

Definition lowerhex (n : nat) : ascii :=
  nth n (list_ascii_of_string "0123456789abcdef") "0"%char.

(** What [strconv.Quote] makes of one byte below [0x80]: the double quote
    and the backslash get a backslash, the seven control characters that
    have a letter get it, the other control characters and [0x7f] are
    written as two hexadecimal digits, the printable characters stay. *)
Definition quoteByte (c : ascii) : string :=
  let n := nat_of_ascii c in
  if (n =? 34)%nat || (n =? 92)%nat then backslash ++ String c EmptyString
  else if (n =? 7)%nat then backslash ++ "a"
  else if (n =? 8)%nat then backslash ++ "b"
  else if (n =? 12)%nat then backslash ++ "f"
  else if (n =? 10)%nat then backslash ++ "n"
  else if (n =? 13)%nat then backslash ++ "r"
  else if (n =? 9)%nat then backslash ++ "t"
  else if (n =? 11)%nat then backslash ++ "v"
  else if (n <? 32)%nat || (n =? 127)%nat
  then backslash ++ "x" ++
       String (lowerhex (n / 16)) (String (lowerhex (n mod 16)) EmptyString)
  else String c EmptyString.

Fixpoint quoteBytes (s : string) : string :=
  match s with
  | EmptyString => EmptyString
  | String c s' => quoteByte c ++ quoteBytes s'
  end.

(** The verb [%q] of [fmt] on a string ([strconv.Quote]). On the bytes from
    [0x80] on Go decodes UTF-8 and keeps the printable runes; the model
    keeps those bytes, and is [%q] itself on the texts of [isASCII]. *)
Definition quote (s : string) : string := dquote ++ quoteBytes s ++ dquote.

Definition isASCII (s : string) : bool :=
  forallb (fun c => (nat_of_ascii c <? 128)%nat) (list_ascii_of_string s).

(** What the evaluator puts between the location and the error of a
    function that failed. *)
Definition callPrefix (at_ : site) (tname fname : string) : string :=
  "executing " ++ quote tname ++ " at <" ++ context at_ ++ ">: error calling " ++
  fname ++ ": ".

(** The [ExecError] the evaluator raises when a function returns an error. *)
Definition callError (at_ : site) (tname fname : string) (e : goError) : goError :=
  {| isExecError := true;
     errText := "template" ++ ": " ++ location at_ ++ ": " ++
                callPrefix at_ tname fname ++ errText e |}.

(** The error of [includeFun] at the recursion limit. *)
Definition limitError (name : string) : goError :=
  plainError ("rendering template has a nested reference name: " ++ name ++
              ": unable to execute template").

(** The error [e] of a call of [include], as it comes out of [k] nested
    executions of the template [tname]. *)
Fixpoint nestedIncludeError (at_ : site) (tname : string) (k : nat) (e : goError) : goError :=
  match k with
  | O => e
  | S k' => callError at_ tname "include" (nestedIncludeError at_ tname k' e)
  end.

(** The [ExecError] of a missing map entry under [missingkey=error]. *)
Definition missingKeyError (at_ : site) (tname key : string) : goError :=
  {| isExecError := true;
     errText := "template: " ++ location at_ ++ ": executing " ++ quote tname ++
                " at <" ++ context at_ ++ ">: map has no entry for key " ++ quote key |}.

Definition gotpl : string := "gotpl".

Definition noTemplateError (name : string) : goError :=
  plainError ("template: no template " ++ quote name ++
              " associated with template " ++ quote gotpl).

(** The result of an execution: the buffer and the error; [None] when the
    evaluation budget of the model is used up. *)
Definition execResult : Type := option ((string * option goError) * fstate).

(** [includeFun]: the closure over the template namespace ([execute] runs a
    named template of it) and the shared depth map. *)
Definition includeFun (execute : string -> value -> fstate -> execResult)
    (name : string) (data : value) (st : fstate) : execResult :=
  let run (st1 : fstate) : execResult :=
    match execute name data st1 with
    | None => None
    | Some ((out, err), st2) =>
        Some ((out, err),
              setIncluded name (depth st2 name - 1)%Z st2)
    end in
  match includedNames st !! name with
  | Some v =>
      if (v >? recursionMaxNums)%Z
      then Some ((EmptyString, Some (limitError name)), st)
      else run (setIncluded name (v + 1)%Z st)
  | None => run (setIncluded name 1%Z st)
  end.

(** [Parse] on a namespace: the parsed templates are bound to their names. *)
Definition addParsed (ns : namespace) (name : string) (main : body)
    (defines : list (string * body)) : namespace :=
  <[name := main]> (foldr (fun d acc => <[d.1 := d.2]> acc) ns defines).

(** [tplFun]: a clone of the parent namespace is extended by the text,
    parsed under the parent's name, and the text is executed in it
    ([runIn] executes a body in a namespace). The parent namespace is not
    touched. *)
Definition tplFun (parser : string -> string -> parsed) (parent : namespace)
    (runIn : namespace -> string -> tmpl -> fstate -> execResult)
    (text : string) (vals : value) (st : fstate) : execResult :=
  match parser gotpl text with
  | ParseErr msg =>
      Some ((EmptyString,
             Some (plainError ("cannot parse template " ++ quote text ++ ": " ++ msg))), st)
  | ParseOk main defines =>
      let t := addParsed parent gotpl main defines in
      match runIn t gotpl (main vals) st with
      | None => None
      | Some ((_, Some err), st') =>
          Some ((EmptyString,
                 Some (plainError ("error during tpl function execution for " ++
                                   quote text ++ ": " ++ errText err))), st')
      | Some ((out, None), st') => Some ((ReplaceAll out noValue EmptyString, None), st')
      end
  end.

(** The [required] of [initFunMap]. *)
Definition requiredFun (opts : engineOptions) (warn : string) (val : value) (st : fstate)
    : (value * option goError) * fstate :=
  match val with
  | VNil =>
      if LintMode opts
      then ((VStr EmptyString, None), logPrint ("[INFO] Missing required value: " ++ warn) st)
      else ((val, Some (plainError (warnWrap warn))), st)
  | VStr s =>
      if String.eqb s EmptyString then
        if LintMode opts
        then ((VStr EmptyString, None), logPrint ("[INFO] Missing required value: " ++ warn) st)
        else ((val, Some (plainError (warnWrap warn))), st)
      else ((val, None), st)
  | _ => ((val, None), st)
  end.

(** The [fail] of [initFunMap]. *)
Definition failFun (opts : engineOptions) (msg : string) (st : fstate)
    : (string * option goError) * fstate :=
  if LintMode opts then ((EmptyString, None), logPrint ("[INFO] Fail: " ++ msg) st)
  else ((EmptyString, Some (plainError (warnWrap msg))), st).

Section Evaluator.

Variable parser : string -> string -> parsed.
Variable opts : engineOptions.

(** The execution of a body of the template [tname] in the namespace [ns],
    appending to [buf]. Every nested execution ([include], [tpl]) takes one
    unit of the budget. *)
Fixpoint runTmpl (fuel : nat) (ns : namespace) (tname : string) (t : tmpl)
    (buf : string) (st : fstate) {struct fuel} : execResult :=
  match fuel with
  | O => None
  | S fuel' =>
      let execute (name : string) (data : value) (st0 : fstate) : execResult :=
        match ns !! name with
        | None => Some ((EmptyString, Some (noTemplateError name)), st0)
        | Some b => runTmpl fuel' ns name (b data) EmptyString st0
        end in
      let runIn (ns' : namespace) (name : string) (t' : tmpl) (st0 : fstate) : execResult :=
        runTmpl fuel' ns' name t' EmptyString st0 in
      (fix run (t : tmpl) (buf : string) (st : fstate) {struct t} : execResult :=
         match t with
         | TDone => Some ((buf, None), st)
         | TText s k => run k (buf ++ s) st
         | TMissingKey at_ key k =>
             if Strict opts then Some ((buf, Some (missingKeyError at_ tname key)), st)
             else run k (buf ++ noValue) st
         | TInclude at_ name data k =>
             match includeFun execute name data st with
             | None => None
             | Some ((_, Some e), st') =>
                 Some ((buf, Some (callError at_ tname "include" e)), st')
             | Some ((out, None), st') => run (k out) buf st'
             end
         | TTpl at_ text data k =>
             match tplFun parser ns runIn text data st with
             | None => None
             | Some ((_, Some e), st') =>
                 Some ((buf, Some (callError at_ tname "tpl" e)), st')
             | Some ((out, None), st') => run (k out) buf st'
             end
         | TRequired at_ warn val k =>
             match requiredFun opts warn val st with
             | ((_, Some e), st') =>
                 Some ((buf, Some (callError at_ tname "required" e)), st')
             | ((v, None), st') => run (k v) buf st'
             end
         | TFail at_ msg k =>
             match failFun opts msg st with
             | ((_, Some e), st') => Some ((buf, Some (callError at_ tname "fail" e)), st')
             | ((out, None), st') => run (k out) buf st'
             end
         end) t buf st
  end.

(** [t.ExecuteTemplate(&buf, name, data)] on the namespace [ns]. *)
Definition executeTemplate (fuel : nat) (ns : namespace) (name : string) (data : value)
    (st : fstate) : execResult :=
  match ns !! name with
  | None => Some ((EmptyString, Some (noTemplateError name)), st)
  | Some b => runTmpl fuel ns name (b data) EmptyString st
  end.

(** The [include] and the [tpl] of [initFunMap], closed over the engine's
    namespace. *)
Definition engineInclude (fuel : nat) (ns : namespace) : string -> value -> fstate -> execResult :=
  includeFun (executeTemplate fuel ns).

Definition engineTpl (fuel : nat) (ns : namespace) : string -> value -> fstate -> execResult :=
  tplFun parser ns (fun ns' name t st => runTmpl fuel ns' name t EmptyString st).

(** The evaluator as the renderer drives it: the namespace and the state of
    the closures. The bodies of the model read the data and leave the store
    as it is. An evaluation that uses up the budget of the model stands for
    one that does not return; it is reported as a panic. *)
Definition engineT : Type := namespace * fstate.

Definition engineParse (t : engineT) (name text : string) : engineT * option goError :=
  match parser name text with
  | ParseOk main defines => ((addParsed (fst t) name main defines, snd t), None)
  | ParseErr msg => (t, Some (plainError msg))
  end.

Definition engineExecute (fuel : nat) (t : engineT) (name : string) (l : loc)
    (h : gmap loc Values) : (string * execOutcome) * (engineT * gmap loc Values) :=
  let data := match h !! l with Some scope => VValues scope | None => VNil end in
  match executeTemplate fuel (fst t) name data (snd t) with
  | None => ((EmptyString, ExecPanic "evaluation budget exhausted"), (t, h))
  | Some ((out, None), st') => ((out, ExecOk), ((fst t, st'), h))
  | Some ((out, Some e), st') => ((out, ExecFail e), ((fst t, st'), h))
  end.

End Evaluator.

(** ** Sample data used by the examples *)

(** A root chart with the two sub-charts [db] and [cache], and caller values
    with a section for [db] only. *)
Definition demoChart : Chart :=
  MkChart "app" "application" [Some {| fileName := "templates/a.yaml"; fileData := "a" |}] []
    [ MkChart "db" "application"
        [Some {| fileName := "templates/d.yaml"; fileData := "d" |}] [] [];
      MkChart "cache" "application"
        [Some {| fileName := "templates/c.yaml"; fileData := "c" |}] [] [] ].

Definition demoValues : Values :=
  {[ "Values" := VMap {[ "replicas" := VNum 3; "db" := VMap {[ "port" := VNum 5432 ]} ]} ]}.

Definition scopeOf (w : walk) (key : string) : option Values :=
  r ← templates w !! key; l ← vals r; scopes w !! l.

(** A template that includes itself without end, and one that includes
    itself as many times as the number it is applied to. *)
Definition selfSite : site :=
  {| location := "loop:1:3"; context := "include " ++ quote "loop" ++ " ." |}.

Definition selfInclude : body :=
  fun d => TInclude selfSite "loop" d (fun out => TText out TDone).

Definition countSite : site :=
  {| location := "count:1:20"; context := "include " ++ quote "count" ++ " (sub . 1)" |}.

Definition countdown : body :=
  fun d =>
    match d with
    | VNum n =>
        if (0 <? n)%Z
        then TText "x" (TInclude countSite "count" (VNum (n - 1)) (fun out => TText out TDone))
        else TDone
    | _ => TDone
    end.

Definition sampleNamespace : namespace :=
  <["loop" := selfInclude]> (<["count" := countdown]> ∅).

Definition freshState : fstate := {| includedNames := ∅; logged := [] |}.

Definition normalMode : engineOptions :=
  {| EnableDNS := false; Strict := false; LintMode := false |}.

Definition lintMode : engineOptions :=
  {| EnableDNS := false; Strict := false; LintMode := true |}.

Definition strictMode : engineOptions :=
  {| EnableDNS := false; Strict := true; LintMode := false |}.

(** The evaluator's parser on the texts of the examples: a text that prints
    an absent entry between two literals, a plain text, and a text the
    evaluator refuses. *)
Definition sampleParser (name text : string) : parsed :=
  if String.eqb text "<no {{ .Values.missing }}value>" then
    ParseOk (fun _ => TText "<no " (TMissingKey
               {| location := name ++ ":1:14"; context := ".Values.missing" |} "missing"
               (TText "value>" TDone))) []
  else if String.eqb text "port: {{ .Values.missing }}" then
    ParseOk (fun _ => TText "port: " (TMissingKey
               {| location := name ++ ":1:16"; context := ".Values.missing" |} "missing"
               TDone)) []
  else if String.eqb text "{{ if }}" then
    ParseErr ("template: " ++ name ++ ":1: missing value for if")
  else ParseOk (fun _ => TText text TDone) [].

(** A renderable of the root chart, its scope in the store, and an engine
    that has parsed it. *)
Definition demoRenderable : renderable :=
  {| tpl := "hello"; vals := Some 0%nat; basePath := "app/templates" |}.

Definition demoStore : gmap loc Values :=
  {[ 0%nat := ({[ "Values" := VMap ∅ ]} : Values) ]}.

Definition demoEngine : engineT :=
  fst (engineParse sampleParser (∅, freshState) "app/templates/a.yaml" "hello").

(** A map of three entries: a partial, a template that renders and one that
    fails in strict mode. *)
Definition demoTpls : gmap string renderable :=
  {[ "app/templates/_helpers.tpl" :=
       {| tpl := "helper"; vals := Some 0%nat; basePath := "app/templates" |};
     "app/templates/a.yaml" := demoRenderable;
     "app/templates/b.yaml" :=
       {| tpl := "port: {{ .Values.missing }}"; vals := Some 0%nat;
          basePath := "app/templates" |} ]}.

(** A map with an entry the evaluator cannot parse. *)
Definition brokenTpls : gmap string renderable :=
  {[ "app/templates/a.yaml" := demoRenderable;
     "app/templates/z.yaml" :=
       {| tpl := "{{ if }}"; vals := Some 0%nat; basePath := "app/templates" |} ]}.

(** A template that requires a name: [required] is applied to the entry
    [name] of the values, nil when there is none. *)
Definition requiredSite : site :=
  {| location := "app/templates/r.yaml:1:3";
     context := "required " ++ quote "a name is required" ++ " .Values.name" |}.

Definition requireName : body :=
  fun d =>
    let name :=
      match d with
      | VValues scope =>
          match scope !! "Values" with
          | Some (VMap v) => index v "name"
          | _ => VNil
          end
      | _ => VNil
      end in
    TRequired requiredSite "a name is required" name
      (fun v => match v with VStr s => TText s TDone | _ => TDone end).

Definition requireEngine : engineT :=
  (<["app/templates/r.yaml" := requireName]> ∅, freshState).

Definition requireRenderable : renderable :=
  {| tpl := "{{ required ... }}"; vals := Some 0%nat; basePath := "app/templates" |}.

(** An entry whose text prints an absent value between two literals. *)
Definition noValueText : string := "<no {{ .Values.missing }}value>".



(** ** Definitions used by the further properties *)

(** The check [pathValue] makes on the entry of a table: the entry is
    returned when it is there and is not a table. *)
Definition leafValue (t : Values) (key : string) : value * option error :=
  match t !! key with
  | Some x => if negb (IsTable x) then (x, None) else (VNil, Some (ErrNoValue key))
  | None => (VNil, Some (ErrNoValue key))
  end.

(** A template that includes the template that requires a name. *)
Definition outerSite : site :=
  {| location := "app/templates/o.yaml:2:5";
     context := "include " ++ quote "app/templates/r.yaml" ++ " ." |}.

Definition includesRequire : body :=
  fun d => TText "name: " (TInclude outerSite "app/templates/r.yaml" d
                             (fun out => TText out TDone)).

Definition nestedEngine : engineT :=
  (<["app/templates/o.yaml" := includesRequire]> (fst requireEngine), freshState).

(** A library chart with a partial and a manifest template. *)
Definition libChart : Chart :=
  MkChart "lib" "library"
    [ Some {| fileName := "templates/_helpers.tpl"; fileData := "helpers" |};
      Some {| fileName := "templates/cm.yaml"; fileData := "cm" |} ] [] [].

(** The loop of [recAllTpls] over the dependencies of a chart, by itself. *)
Definition walkChildren (pathJoin : string -> string -> string) (newParentID : string)
    (next : Values) : list Chart -> Values -> walk -> Values * walk :=
  fix children (cs : list Chart) (acc : Values) (s : walk) : Values * walk :=
    match cs with
    | [] => (acc, s)
    | child :: cs' =>
        let '(r, s') := recAllTpls pathJoin child (Some newParentID) next s in
        children cs' (<[chartName child := VMap r]> acc) s'
    end.

(** What a walk from [st] to [st'] keeps: scopes are allocated at fresh
    addresses, the scopes allocated before are not touched, every new scope
    carries [R] and [C] under [Release] and [Capabilities], and a registered
    entry is an old one or refers to a new scope. *)
Definition walkGrows (R C : value) (st st' : walk) : Prop :=
  nextLoc st <= nextLoc st' /\
  (forall l, l < nextLoc st -> scopes st' !! l = scopes st !! l) /\
  (forall l, nextLoc st <= l < nextLoc st' ->
     exists sc, scopes st' !! l = Some sc /\ sc !! "Release" = Some R /\
                sc !! "Capabilities" = Some C) /\
  (forall k r, templates st' !! k = Some r ->
     templates st !! k = Some r \/
     exists l, vals r = Some l /\ nextLoc st <= l < nextLoc st').

(** A template that includes the template [name] [n] times, one call after
    the other, and prints what each call returns. *)
Fixpoint includeTimes (at_ : site) (name : string) (data : value) (n : nat) : tmpl :=
  match n with
  | O => TDone
  | S n' => TInclude at_ name data (fun out => TText out (includeTimes at_ name data n'))
  end.

(** [n] copies of a text. *)
Fixpoint copies (s : string) (n : nat) : string :=
  match n with
  | O => EmptyString
  | S n' => s ++ copies s n'
  end.

Definition leafSite : site :=
  {| location := "app/templates/many.yaml:1:3"; context := "include " ++ quote "leaf" ++ " ." |}.

Definition leafNamespace : namespace := {[ "leaf" := (fun _ => TText "x" TDone) ]}.

(** A template that requires a name with a message that holds the start
    delimiter; the evaluator repeats the action, message included, in the
    text of its error. *)
Definition delimiterMessage : string := "x HELM_ERR_START y".

Definition echoSite : site :=
  {| location := "app/templates/e.yaml:1:3";
     context := "required " ++ quote delimiterMessage ++ " .Values.name" |}.

Definition requireEcho : body :=
  fun d =>
    let name :=
      match d with
      | VValues scope =>
          match scope !! "Values" with
          | Some (VMap v) => index v "name"
          | _ => VNil
          end
      | _ => VNil
      end in
    TRequired echoSite delimiterMessage name
      (fun v => match v with VStr s => TText s TDone | _ => TDone end).

Definition echoEngine : engineT :=
  (<["app/templates/e.yaml" := requireEcho]> ∅, freshState).

Definition echoRenderable : renderable :=
  {| tpl := "{{ required ... }}"; vals := Some 0%nat; basePath := "app/templates" |}.

(** ** The entry points *)

(** A [*chart.Chart] as the entry point is handed it by the decoder of the
    input: the pointer can be nil, and so can the [Metadata] of a chart, at
    the root and at every dependency. *)
Inductive chartPtr : Type :=
| NilChart
| ChartPtr (metadata : option (string * string)) (templates : list (option File))
           (files : list (string * string)) (deps : list chartPtr).

(** [recAllTpls] starts by dereferencing [c.Metadata] ([*c.Metadata] in the
    literal of [chartMetaData]); on a nil chart and on a chart without
    metadata this panics, and neither the engine nor [main.go] recovers
    outside [renderTemplate]. The walk calls [recAllTpls] on every chart of
    the tree before anything is parsed or rendered, so it panics when one of
    them is nil or has no metadata ([None]); otherwise it runs on the tree of
    the charts pointed to. The pair of the metadata is the name and the
    type. *)
Fixpoint derefChart (p : chartPtr) : option Chart :=
  match p with
  | NilChart => None
  | ChartPtr None _ _ _ => None
  | ChartPtr (Some (n, t)) ts fs ds =>
      match
        (fix all (ds : list chartPtr) : option (list Chart) :=
           match ds with
           | [] => Some []
           | d :: ds' =>
               match derefChart d with
               | None => None
               | Some c =>
                   match all ds' with
                   | None => None
                   | Some cs => Some (c :: cs)
                   end
               end
           end) ds
      with
      | None => None
      | Some cs => Some (MkChart n t ts fs cs)
      end
  end.

Section Plugin.

Variable pathJoin : string -> string -> string.
Variable T : Type.
Variable Parse : T -> string -> string -> T * option goError.
Variable ExecuteTemplate :
  T -> string -> loc -> gmap loc Values -> (string * execOutcome) * (T * gmap loc Values).

(** [json.Unmarshal] into a [Values]: the decoded table, or the text of the
    decoder's error. *)
Variable decode : string -> Values + string.

(** [RenderAllChartTemplates], on a chart that is there with its metadata:
    the walk builds the template map and the scopes, the renderer runs on
    them. *)
Definition renderAllOf (c : Chart) (values : Values) (t : T)
    : (gmap string string * option goError) * state T :=
  let tmap := allTemplates pathJoin c values in
  renderTemplates T Parse ExecuteTemplate (templates tmap) (t, scopes tmap).

(** [RenderAllChartTemplates] on the pointer it is handed: [None] is the
    panic of the walk. *)
Definition RenderAllChartTemplates (chrt : chartPtr) (values : Values) (t : T)
    : option ((gmap string string * option goError) * state T) :=
  match derefChart chrt with
  | None => None
  | Some c => Some (renderAllOf c values t)
  end.

Record OutputManifest : Type := { Filename : string; Manifest : string }.

Record Input : Type := { InputChart : chartPtr; ValuesJSON : string }.

(** How a call of [RenderChartTemplates] ends: it returns its two results,
    or it panics. *)
Inductive outcome : Type :=
| Returned (output : option (list OutputManifest)) (err : option goError)
| Panicked.

(** [RenderChartTemplates] of [main.go], on the engine [NewEngine] returns
    ([NewEngine] is called without options, and fails only when an option
    does). The values are decoded before the chart is looked at. The
    manifests are appended in the order the result map yields its
    entries. The lines written to the log of the host are left out. *)
Definition RenderChartTemplates (e : T) (input : Input) : outcome :=
  match decode (ValuesJSON input) with
  | inr msg =>
      Returned None (Some (plainError ("failed to parse input values json: " ++ msg)))
  | inl values =>
      match RenderAllChartTemplates (InputChart input) values e with
      | None => Panicked
      | Some ((_, Some err), _) =>
          Returned None
            (Some (plainError ("failed to render chart templates: " ++ errText err)))
      | Some ((renderedManifests, None), _) =>
          Returned
            (Some (map (fun p => {| Filename := fst p; Manifest := snd p |})
                       (map_to_list renderedManifests))) None
      end
  end.

End Plugin.

(** A chart pointer with a dependency that has no metadata, and the pointer
    to the sample chart. *)
Definition brokenPtr : chartPtr :=
  ChartPtr (Some ("app", "application"))
    [Some {| fileName := "templates/a.yaml"; fileData := "a" |}] []
    [ChartPtr None [] [] []].

Definition demoPtr : chartPtr :=
  ChartPtr (Some ("app", "application"))
    [Some {| fileName := "templates/a.yaml"; fileData := "a" |}] []
    [ ChartPtr (Some ("db", "application"))
        [Some {| fileName := "templates/d.yaml"; fileData := "d" |}] [] [];
      ChartPtr (Some ("cache", "application"))
        [Some {| fileName := "templates/c.yaml"; fileData := "c" |}] [] [] ].


(* ================================================================== *)
(** * Part II: properties                                              *)
(* ================================================================== *)

Example Split_ex : Split "a.b.c" "." = ["a"; "b"; "c"].
Proof. reflexivity. Qed.

Example Base_ex : Base "a/b/_c.tpl" = "_c.tpl" /\ Base "a//" = "a" /\ Base "//" = "/".
Proof. repeat split. Qed.

(** ** Strings *)

Lemma genSplit_not_nil cuts s sep : genSplit cuts s sep <> [].
Proof. destruct cuts; simpl; [discriminate|]. destruct (Cut s sep) as [[a b]|]; discriminate. Qed.

Lemma string_app_nil_r s : s ++ EmptyString = s.
Proof. induction s as [|c s IH]; simpl; congruence. Qed.

Lemma string_app_assoc a b c : (a ++ b) ++ c = a ++ b ++ c.
Proof. induction a as [|x a IH]; simpl; congruence. Qed.

Lemma string_length_app a b :
  String.length (a ++ b) = (String.length a + String.length b)%nat.
Proof. induction a as [|x a IH]; simpl; congruence. Qed.

Lemma prefix_nil_l s : String.prefix EmptyString s = true.
Proof. destruct s; reflexivity. Qed.

Lemma prefix_cons c p d s :
  String.prefix (String c p) (String d s) = true <-> c = d /\ String.prefix p s = true.
Proof.
  simpl. destruct (ascii_dec c d) as [->|N]; [tauto|]. split; [discriminate|tauto].
Qed.

Lemma prefix_app p r : String.prefix p (p ++ r) = true.
Proof.
  induction p as [|c p IH]; [apply prefix_nil_l|]. simpl.
  destruct (ascii_dec c c); [exact IH|congruence].
Qed.

Lemma prefix_split p : forall s,
  String.prefix p s = true -> s = p ++ string_drop (String.length p) s.
Proof.
  induction p as [|c p IH]; intros s H; [reflexivity|].
  destruct s as [|d s]; [discriminate|].
  apply prefix_cons in H as [-> H]. simpl. f_equal. auto.
Qed.

Lemma prefix_app_mono p : forall a x,
  String.prefix p a = true -> String.prefix p (a ++ x) = true.
Proof.
  induction p as [|c p IH]; intros a x H; [apply prefix_nil_l|].
  destruct a as [|d a]; [discriminate|].
  apply prefix_cons in H as [-> H]. apply prefix_cons. auto.
Qed.

Lemma prefix_length p : forall s,
  String.prefix p s = true -> (String.length p <= String.length s)%nat.
Proof.
  induction p as [|c p IH]; intros s H; simpl; [lia|].
  destruct s as [|d s]; [discriminate|].
  apply prefix_cons in H as [_ H]. apply IH in H. simpl. lia.
Qed.

(** Whether [p] starts a text depends on its first [len(p)] bytes only. *)
Lemma prefix_app_long p : forall a x,
  (String.length p <= String.length a)%nat ->
  String.prefix p (a ++ x) = String.prefix p a.
Proof.
  induction p as [|c p IH]; intros a x H; [now rewrite !prefix_nil_l|].
  destruct a as [|d a]; simpl in H; [lia|]. simpl.
  destruct (ascii_dec c d); [apply IH; lia|reflexivity].
Qed.

Lemma string_drop_app p r : string_drop (String.length p) (p ++ r) = r.
Proof. induction p as [|c p IH]; simpl; auto. Qed.

Lemma Cut_nil sep : sep <> EmptyString -> Cut EmptyString sep = None.
Proof. destruct sep; [congruence|reflexivity]. Qed.

Lemma Cut_unfold s sep :
  Cut s sep =
  if String.prefix sep s then Some (EmptyString, string_drop (String.length sep) s)
  else match s with
       | EmptyString => None
       | String c s' =>
           match Cut s' sep with Some (a, b) => Some (String c a, b) | None => None end
       end.
Proof. destruct s; reflexivity. Qed.

(** [Cut] splits the text around an occurrence of the separator. *)
Lemma Cut_Some s sep : forall a b, Cut s sep = Some (a, b) -> s = a ++ sep ++ b.
Proof.
  induction s as [|c s IH]; intros a b; cbn [Cut].
  - destruct (String.prefix sep EmptyString) eqn:E; [|discriminate].
    intros [= <- <-]. now apply prefix_split in E.
  - destruct (String.prefix sep (String c s)) eqn:E.
    + intros [= <- <-]. now apply prefix_split in E.
    + destruct (Cut s sep) as [[a' b']|] eqn:Ec; [|discriminate].
      intros [= <- <-]. simpl. f_equal. auto.
Qed.

(** The occurrence is the first one: there is none in the text before it. *)
Lemma Cut_before s sep : sep <> EmptyString ->
  forall a b, Cut s sep = Some (a, b) -> Cut a sep = None.
Proof.
  intros Hsep. induction s as [|c s IH]; intros a b.
  - now rewrite Cut_nil.
  - cbn [Cut]. destruct (String.prefix sep (String c s)) eqn:E.
    + intros [= <- _]. now apply Cut_nil.
    + destruct (Cut s sep) as [[a' b']|] eqn:Ec; [|discriminate].
      intros [= <- <-]. cbn [Cut]. rewrite (IH _ _ eq_refl).
      destruct (String.prefix sep (String c a')) eqn:E'; [|reflexivity].
      apply Cut_Some in Ec. subst s.
      apply (prefix_app_mono _ _ (sep ++ b')) in E'.
      change (String c a' ++ sep ++ b') with (String c (a' ++ sep ++ b')) in E'. congruence.
Qed.

Lemma Cut_length s sep a b :
  Cut s sep = Some (a, b) ->
  String.length s = (String.length a + String.length sep + String.length b)%nat.
Proof. intros H. apply Cut_Some in H. subst s. rewrite !string_length_app. lia. Qed.

(** When the first occurrence of [sep] in [a ++ sep] is the appended one, it
    is the first occurrence in every extension too. *)
Lemma Cut_app_first sep a rest :
  Cut (a ++ sep) sep = Some (a, EmptyString) ->
  Cut (a ++ sep ++ rest) sep = Some (a, rest).
Proof.
  induction a as [|c a IH]; intros H.
  - change (EmptyString ++ sep ++ rest) with (sep ++ rest).
    rewrite Cut_unfold, prefix_app, string_drop_app. reflexivity.
  - change (String c a ++ sep ++ rest) with (String c (a ++ sep ++ rest)).
    change (String c a ++ sep) with (String c (a ++ sep)) in H.
    rewrite Cut_unfold in H. rewrite Cut_unfold.
    rewrite <- (string_app_assoc a sep rest).
    change (String c ((a ++ sep) ++ rest)) with (String c (a ++ sep) ++ rest).
    rewrite prefix_app_long.
    2:{ simpl. rewrite string_length_app. lia. }
    destruct (String.prefix sep (String c (a ++ sep))); [discriminate|].
    change (String c (a ++ sep) ++ rest) with (String c ((a ++ sep) ++ rest)).
    cbv iota. rewrite string_app_assoc.
    destruct (Cut (a ++ sep) sep) as [[a' b']|] eqn:Ec; [|discriminate].
    injection H as -> ->. now rewrite IH.
Qed.

Lemma Cut_None_Contains s sep : Cut s sep = None <-> Contains s sep = false.
Proof. unfold Contains. destruct (Cut s sep); split; congruence. Qed.

(** With enough cuts allowed, allowing more changes nothing. *)
Lemma genSplit_fuel sep : sep <> EmptyString ->
  forall n m s, (String.length s <= n)%nat -> (String.length s <= m)%nat ->
  genSplit n s sep = genSplit m s sep.
Proof.
  intros Hsep. assert (0 < String.length sep)%nat by (destruct sep; simpl; [congruence|lia]).
  induction n as [|n IH]; intros m s Hn Hm.
  - destruct s; simpl in Hn; [|lia]. destruct m; cbn [genSplit]; [reflexivity|]. now rewrite Cut_nil.
  - destruct m as [|m].
    + destruct s; simpl in Hm; [|lia]. cbn [genSplit]. now rewrite Cut_nil.
    + cbn [genSplit]. destruct (Cut s sep) as [[a b]|] eqn:E; [|reflexivity].
      apply Cut_length in E. f_equal. apply IH; lia.
Qed.

Lemma Split_cons s sep a b : sep <> EmptyString ->
  Cut s sep = Some (a, b) -> Split s sep = a :: Split b sep.
Proof.
  intros Hsep E. unfold Split. pose proof (Cut_length _ _ _ _ E) as HL.
  assert (0 < String.length sep)%nat by (destruct sep; simpl; [congruence|lia]).
  destruct (String.length s) as [|n] eqn:En; [lia|].
  cbn [genSplit]. rewrite E. f_equal. apply genSplit_fuel; [exact Hsep|lia..].
Qed.

Lemma Split_single s sep : Cut s sep = None -> Split s sep = [s].
Proof. intros E. unfold Split. destruct (String.length s); cbn [genSplit]; [reflexivity|]. now rewrite E. Qed.

(** The pieces joined by the separator are the text. *)
Lemma Join_genSplit sep : forall n s, Join (genSplit n s sep) sep = s.
Proof.
  induction n as [|n IH]; intros s; cbn [genSplit]; [reflexivity|].
  destruct (Cut s sep) as [[a b]|] eqn:E; [|reflexivity].
  specialize (IH b). apply Cut_Some in E.
  destruct (genSplit n b sep) as [|x l] eqn:El; [now apply genSplit_not_nil in El|].
  change (Join (a :: x :: l) sep) with (a ++ sep ++ Join (x :: l) sep). congruence.
Qed.

(** No piece of [Split] contains the separator. *)
Lemma genSplit_free sep : sep <> EmptyString ->
  forall n s, (String.length s <= n)%nat ->
  List.Forall (fun p => Contains p sep = false) (genSplit n s sep).
Proof.
  intros Hsep. assert (0 < String.length sep)%nat by (destruct sep; simpl; [congruence|lia]).
  induction n as [|n IH]; intros s Hn.
  - destruct s; simpl in Hn; [|lia]. repeat constructor. now apply Cut_None_Contains, Cut_nil.
  - cbn [genSplit]. destruct (Cut s sep) as [[a b]|] eqn:E.
    + constructor.
      * apply Cut_None_Contains. eapply Cut_before; eauto.
      * apply IH. apply Cut_length in E. lia.
    + repeat constructor. now apply Cut_None_Contains.
Qed.



(** *** Separators that cannot overlap themselves *)

Lemma occursIn_get h : forall t i, String.get i t = Some h -> occursIn h t = true.
Proof.
  induction t as [|d t IH]; intros i; [discriminate|].
  destruct i as [|i]; simpl.
  - intros [= ->]. now rewrite Ascii.eqb_refl.
  - intros H. rewrite (IH _ H). apply orb_true_r.
Qed.

Lemma prefix_get p : forall s i c,
  String.prefix p s = true -> String.get i p = Some c -> String.get i s = Some c.
Proof.
  induction p as [|x p IH]; intros s i c Hp; [discriminate|].
  destruct s as [|y s]; [discriminate|]. apply prefix_cons in Hp as [-> Hp].
  destruct i as [|i]; simpl; [auto|]. now apply IH.
Qed.

Lemma get_app_r x : forall s i, String.get (String.length x + i) (x ++ s) = String.get i s.
Proof. induction x as [|c x IH]; intros s i; simpl; auto. Qed.

Lemma get_lt s : forall i, (i < String.length s)%nat -> exists c, String.get i s = Some c.
Proof.
  induction s as [|d s IH]; intros i H; simpl in H; [lia|].
  destruct i as [|i]; simpl; [eauto|]. apply IH. lia.
Qed.

(** An unbordered separator does not start in [x] and run over into a copy
    of itself that follows [x]. *)
Lemma unbordered_no_straddle sep x :
  unbordered sep = true -> x <> EmptyString ->
  (String.length x < String.length sep)%nat ->
  String.prefix sep (x ++ sep) = false.
Proof.
  intros Hu Hx Hlen. destruct (String.prefix sep (x ++ sep)) eqn:E; [exfalso|reflexivity].
  destruct sep as [|h t]; [discriminate|]. simpl in Hu. apply negb_true_iff in Hu.
  destruct x as [|c x]; [congruence|]. simpl in Hlen.
  destruct (get_lt t (String.length x)) as [d Hd]; [lia|].
  assert (Hd' : String.get (String.length (String c x)) (String h t) = Some d) by exact Hd.
  pose proof (prefix_get _ _ _ _ E Hd') as HG.
  rewrite <- (Nat.add_0_r (String.length (String c x))), get_app_r in HG.
  simpl in HG. injection HG as ->.
  apply occursIn_get in Hd. congruence.
Qed.

Lemma Cut_self sep : Cut sep sep = Some (EmptyString, EmptyString).
Proof.
  rewrite Cut_unfold. rewrite <- (string_app_nil_r sep) at 2.
  rewrite prefix_app. rewrite <- (string_app_nil_r sep) at 2. now rewrite string_drop_app.
Qed.

(** The first occurrence of an unbordered separator after a text free of it
    is the one that follows the text. *)
Lemma Cut_unbordered sep a rest :
  unbordered sep = true -> Contains a sep = false ->
  Cut (a ++ sep ++ rest) sep = Some (a, rest).
Proof.
  intros Hu Ha. apply Cut_app_first. apply Cut_None_Contains in Ha.
  induction a as [|c a IH].
  - apply Cut_self.
  - rewrite Cut_unfold in Ha.
    destruct (String.prefix sep (String c a)) eqn:E; [discriminate|].
    destruct (Cut a sep) as [[a' b']|] eqn:Ec; [discriminate|].
    change (String c a ++ sep) with (String c (a ++ sep)). rewrite Cut_unfold.
    change (String c (a ++ sep)) with (String c a ++ sep).
    destruct (Nat.le_gt_cases (String.length sep) (String.length (String c a))) as [L|L].
    + rewrite prefix_app_long, E by exact L.
      change (String c a ++ sep) with (String c (a ++ sep)). cbv iota.
      now rewrite IH.
    + rewrite unbordered_no_straddle by (auto; discriminate).
      change (String c a ++ sep) with (String c (a ++ sep)). cbv iota.
      now rewrite IH.
Qed.

Lemma unbordered_not_nil sep : unbordered sep = true -> sep <> EmptyString.
Proof. destruct sep; [discriminate|congruence]. Qed.

(** Splitting a text joined from separator-free pieces gives the pieces. *)
Lemma Split_Join sep : unbordered sep = true ->
  forall toks, toks <> [] ->
  List.Forall (fun t => Contains t sep = false) toks ->
  Split (Join toks sep) sep = toks.
Proof.
  intros Hu. induction toks as [|x toks IH]; intros Hne HF; [congruence|].
  apply List.Forall_cons_iff in HF as [Hx HF].
  destruct toks as [|y toks].
  - simpl. apply Split_single. now apply Cut_None_Contains.
  - change (Join (x :: y :: toks) sep) with (x ++ sep ++ Join (y :: toks) sep).
    rewrite (Split_cons _ sep x (Join (y :: toks) sep)).
    + f_equal. apply IH; [discriminate|exact HF].
    + now apply unbordered_not_nil.
    + now apply Cut_unbordered.
Qed.

Lemma CutLast_short sep : forall s,
  (String.length s < String.length sep)%nat -> CutLast s sep = None.
Proof.
  induction s as [|c s IH]; intros H.
  - destruct sep; [simpl in H; lia|reflexivity].
  - cbn [CutLast]. rewrite IH by (simpl in H; lia).
    destruct (String.prefix sep (String c s)) eqn:E; [|reflexivity].
    apply prefix_length in E. lia.
Qed.

(** The last occurrence of a separator in a text that ends with it is the
    one at the end. *)
Lemma CutLast_app_end sep : sep <> EmptyString ->
  forall m, CutLast (m ++ sep) sep = Some (m, EmptyString).
Proof.
  intros Hsep. induction m as [|c m IH].
  - change (EmptyString ++ sep) with sep.
    destruct sep as [|h t]; [congruence|]. cbn [CutLast].
    rewrite CutLast_short by (simpl; lia).
    rewrite <- (string_app_nil_r (String h t)) at 2. rewrite prefix_app.
    rewrite <- (string_app_nil_r (String h t)) at 2. now rewrite string_drop_app.
  - change (String c m ++ sep) with (String c (m ++ sep)). cbn [CutLast]. now rewrite IH.
Qed.

(** ** Value tables *)

Lemma ParsePath_not_nil p : ParsePath p <> [].
Proof. apply genSplit_not_nil. Qed.

Lemma PathValue_empty (v : Values) :
  PathValue v "" = (VNil, Some (ErrText "YAML path cannot be empty")).
Proof. reflexivity. Qed.

(** A value returned without error never satisfies [IsTable]. *)
Lemma pathValue_not_IsTable (v : Values) path x :
  pathValue v path = (x, None) -> IsTable x = false.
Proof.
  unfold pathValue. destruct path as [|p0 [|p1 rest]]; [discriminate| |].
  - destruct (v !! p0) as [y|]; [|discriminate].
    destruct (IsTable y) eqn:E; simpl; [discriminate|]. intros [= <-]. exact E.
  - destruct (Table v _) as [t [e|]]; [discriminate|].
    destruct (t !! _) as [y|]; [|discriminate].
    destruct (IsTable y) eqn:E; simpl; [discriminate|]. intros [= <-]. exact E.
Qed.

(** Every failure of a lookup is a "no such value" error named by the last
    segment of the path. *)
Lemma pathValue_error (v : Values) path x e :
  path <> [] -> pathValue v path = (x, Some e) ->
  x = VNil /\ e = ErrNoValue (List.last path EmptyString).
Proof.
  unfold pathValue. destruct path as [|p0 [|p1 rest]]; [congruence| |]; intros _.
  - destruct (v !! p0) as [y|]; [destruct (negb (IsTable y))|]; intros [= <- <-]; auto.
  - destruct (Table v _) as [t [e'|]]; [intros [= <- <-]; auto|].
    destruct (t !! _) as [y|]; [destruct (negb (IsTable y))|]; intros [= <- <-]; auto.
Qed.

Lemma PathValue_error (v : Values) p x e :
  p <> EmptyString -> PathValue v p = (x, Some e) ->
  x = VNil /\ e = ErrNoValue (List.last (ParsePath p) EmptyString).
Proof.
  intros Hp. unfold PathValue. destruct (String.eqb_spec p EmptyString); [congruence|].
  apply pathValue_error, ParsePath_not_nil.
Qed.

(** A table held as a plain map is refused, at the top level and below. *)
Example PathValue_plain_table :
  let v : Values := {[ "a" := VMap {[ "b" := VMap {[ "c" := VNum 1 ]} ]} ]} in
  PathValue v "a" = (VNil, Some (ErrNoValue "a")) /\
  PathValue v "a.b" = (VNil, Some (ErrNoValue "b")) /\
  PathValue v "a.b.c" = (VNum 1, None) /\
  PathValue v "a.x.c" = (VNil, Some (ErrNoValue "c")).
Proof. vm_compute. repeat split; exact eq_refl. Qed.

Lemma tableLoop_app v pre post :
  tableLoop v (pre ++ post)%list =
  match tableLoop v pre with
  | (t, None) => tableLoop t post
  | r => r
  end.
Proof.
  revert v. induction pre as [|n pre IH]; intros v; cbn [tableLoop app]; [reflexivity|].
  destruct (tableLookup v n) as [t [e|]]; [reflexivity|apply IH].
Qed.

(** [Table] fails at the first segment that is absent or is not a table, and
    the error names that segment. *)
Lemma Table_names_first_failing_segment (v : Values) p pre s post t1 t2 e :
  ParsePath p = (pre ++ s :: post)%list ->
  tableLoop v pre = (t1, None) ->
  tableLookup t1 s = (t2, Some e) ->
  Table v p = (t2, Some (ErrNoTable s)).
Proof.
  intros HP Hpre Hs. unfold Table. rewrite HP, tableLoop_app, Hpre. cbn [tableLoop].
  rewrite Hs. f_equal. unfold tableLookup in Hs.
  destruct (t1 !! s) as [[]|]; congruence.
Qed.

(** [Table] returns the table a path resolves to. *)
Lemma Table_resolves (v : Values) p pre s t1 m :
  ParsePath p = (pre ++ [s])%list ->
  tableLoop v pre = (t1, None) ->
  t1 !! s = Some (VMap m) \/ t1 !! s = Some (VValues m) ->
  Table v p = (m, None).
Proof.
  intros HP Hpre Hs. unfold Table. rewrite HP, tableLoop_app, Hpre. cbn [tableLoop].
  unfold tableLookup. destruct Hs as [-> | ->]; reflexivity.
Qed.

(** X1. For a dotted path whose segments resolve to tables up to a segment
    [s] that is absent or is not a table, [Table] fails with the "no such
    table" error named by [s]. *)
Theorem X1_Table_names_the_first_failing_segment (v : Values) p pre s post t1 t2 e :
  ParsePath p = (pre ++ s :: post)%list ->
  tableLoop v pre = (t1, None) ->
  tableLookup t1 s = (t2, Some e) ->
  Table v p = (t2, Some (ErrNoTable s)).
Proof. apply Table_names_first_failing_segment. Qed.

Lemma X1_witness :
  let v : Values := {[ "a" := VMap {[ "b" := VNum 1 ]} ]} in
  Table v "a.b.c" = (∅, Some (ErrNoTable "b")).
Proof.
  exact (X1_Table_names_the_first_failing_segment
           {[ "a" := VMap {[ "b" := VNum 1 ]} ]} "a.b.c" ["a"] "b" ["c"]
           {[ "b" := VNum 1 ]} ∅ (ErrNoTable "b") eq_refl eq_refl eq_refl).
Defined.

(** C9. [PathValue] is to return a leaf only when it is not a table. A table
    held under the named type [Values] is a table for [Table], which descends
    into it, and yet [PathValue] hands it back as a value: [IsTable] asserts
    the plain map type only. *)
Theorem C9_PathValue_returns_named_table :
  let inner : Values := {[ "b" := VNum 1 ]} in
  let v : Values := {[ "a" := VValues inner ]} in
  Table v "a" = (inner, None) /\
  PathValue v "a" = (VValues inner, None).
Proof. vm_compute. split; exact eq_refl. Qed.

(** ** The chart tree walker *)

Section WalkerFacts.

Variable pathJoin : string -> string -> string.

Lemma recAllTpls_scope c parent vals st :
  exists sub,
    fst (recAllTpls pathJoin c parent vals st) =
    <["Subcharts" := VMap sub]> (resolveValues parent c vals (scopeLiteral parent c vals)).
Proof.
  destruct c as [n t ts fs ds]. simpl.
  match goal with |- context [let '(_, _) := ?f ?a ?b ?c in _] => destruct (f a b c) as [sub st2] end.
  exists sub. reflexivity.
Qed.

(** The root scope carries the caller's [Values] entry as it is. *)
Lemma recAllTpls_root_Values c vals st :
  fst (recAllTpls pathJoin c None vals st) !! "Values" = Some (index vals "Values").
Proof.
  destruct (recAllTpls_scope c None vals st) as [sub ->].
  rewrite lookup_insert_ne by discriminate.
  unfold resolveValues; cbn [IsRoot]. apply lookup_insert_eq.
Qed.

(** A sub-chart whose section is found carries that section. *)
Lemma recAllTpls_sub_Values_found c pp vals st vs :
  Table vals ("Values." ++ chartName c) = (vs, None) ->
  fst (recAllTpls pathJoin c (Some pp) vals st) !! "Values" = Some (VValues vs).
Proof.
  intros HT. destruct (recAllTpls_scope c (Some pp) vals st) as [sub ->].
  rewrite lookup_insert_ne by discriminate.
  unfold resolveValues; cbn [IsRoot]. rewrite HT. apply lookup_insert_eq.
Qed.

(** A sub-chart whose section is missing has no [Values] key at all: the
    empty table of the scope literal sits under the key
    ["chartutil.Values"]. *)
Lemma recAllTpls_sub_Values_missing c pp vals st t e :
  Table vals ("Values." ++ chartName c) = (t, Some e) ->
  fst (recAllTpls pathJoin c (Some pp) vals st) !! "Values" = None /\
  fst (recAllTpls pathJoin c (Some pp) vals st) !! "chartutil.Values" = Some (VValues ∅).
Proof.
  intros HT. destruct (recAllTpls_scope c (Some pp) vals st) as [sub ->].
  rewrite !lookup_insert_ne by discriminate.
  unfold resolveValues; cbn [IsRoot]. rewrite HT. unfold scopeLiteral.
  split.
  - repeat (rewrite lookup_insert_ne by discriminate). apply lookup_empty.
  - repeat (rewrite lookup_insert_ne by discriminate). apply lookup_insert_eq.
Qed.

Lemma ParsePath_Values n : ParsePath ("Values." ++ n) = "Values" :: ParsePath n.
Proof.
  unfold ParsePath. apply Split_cons; [discriminate|].
  change ("Values." ++ n) with ("Values" ++ "." ++ n). now apply Cut_unbordered.
Qed.

(** A chart reads the scope it is handed at [Release], [Capabilities] and
    [Values] only: what the scope has under [Subcharts] does not matter. *)
Lemma recAllTpls_ignores_Subcharts c parent vals sub st :
  recAllTpls pathJoin c parent (<["Subcharts" := sub]> vals) st
  = recAllTpls pathJoin c parent vals st.
Proof.
  assert (Hidx : forall k, k <> "Subcharts" -> index (<["Subcharts" := sub]> vals) k = index vals k).
  { intros k Hk. unfold index. now rewrite lookup_insert_ne. }
  assert (Hlit : scopeLiteral parent c (<["Subcharts" := sub]> vals) = scopeLiteral parent c vals).
  { unfold scopeLiteral. now rewrite !Hidx by discriminate. }
  assert (Hres : forall next, resolveValues parent c (<["Subcharts" := sub]> vals) next
                              = resolveValues parent c vals next).
  { intros next. unfold resolveValues. rewrite Hidx by discriminate.
    destruct (IsRoot parent); [reflexivity|].
    unfold Table. rewrite ParsePath_Values. cbn [tableLoop].
    assert (HL : forall w : Values,
               tableLookup w "Values" =
               match w !! "Values" with
               | None => (w, Some (ErrNoTable "Values"))
               | Some (VMap vv) => (vv, None)
               | Some (VValues vv) => (vv, None)
               | Some _ => (∅, Some (ErrNoTable "Values"))
               end) by reflexivity.
    rewrite !HL, lookup_insert_ne by discriminate.
    destruct (vals !! "Values") as [[]|]; reflexivity. }
  destruct c as [n t ts fs ds]. cbn [recAllTpls]. now rewrite Hlit, Hres.
Qed.

End WalkerFacts.

(** C1. The root scope and the scope of [db] are as the specification says;
    the scope of [cache], which has no section in the caller's values, has no
    [Values] key (the specification asks for an empty table under that key). *)
Theorem C1_missing_section_leaves_Values_absent :
  let w := allTemplates joinClean demoChart demoValues in
  (scopeOf w "app/templates/a.yaml" ≫= (.!! "Values")) = Some (index demoValues "Values") /\
  (scopeOf w "app/charts/db/templates/d.yaml" ≫= (.!! "Values"))
    = Some (VValues {[ "port" := VNum 5432 ]}) /\
  (scopeOf w "app/charts/cache/templates/c.yaml" ≫= (.!! "Values")) = None /\
  (scopeOf w "app/charts/cache/templates/c.yaml" ≫= (.!! "chartutil.Values"))
    = Some (VValues ∅).
Proof. vm_compute. repeat split; exact eq_refl. Qed.

(** ** The processing order *)

Lemma ascii_compare_lt_trans a b c :
  Ascii.compare a b = Lt -> Ascii.compare b c = Lt -> Ascii.compare a c = Lt.
Proof. unfold Ascii.compare. rewrite !N.compare_lt_iff. lia. Qed.

Lemma string_compare_lt_trans a : forall b c,
  String.compare a b = Lt -> String.compare b c = Lt -> String.compare a c = Lt.
Proof.
  induction a as [|x a IH]; intros [|y b] [|z c]; simpl; try easy.
  destruct (Ascii.compare x y) eqn:Exy; try easy.
  - apply Ascii.compare_eq_iff in Exy; subst y.
    destruct (Ascii.compare x z) eqn:Exz; try easy. eauto.
  - destruct (Ascii.compare y z) eqn:Eyz; try easy.
    + apply Ascii.compare_eq_iff in Eyz; subst z. now rewrite Exy.
    + now rewrite (ascii_compare_lt_trans _ _ _ Exy Eyz).
Qed.

Lemma string_compare_refl a : String.compare a a = Eq.
Proof.
  induction a as [|x a IH]; simpl; [reflexivity|].
  unfold Ascii.compare. now rewrite N.compare_refl.
Qed.

Lemma string_compare_gt_lt a b : String.compare a b = Gt <-> String.compare b a = Lt.
Proof.
  rewrite (String.compare_antisym b a). destruct (String.compare a b); simpl; split; congruence.
Qed.

(** [reverseLess byPathLenLess] decides [processedBefore]. *)
Lemma reverseLess_spec a b :
  reverseLess byPathLenLess a b = true <-> processedBefore a b.
Proof.
  unfold reverseLess, byPathLenLess, processedBefore, CompareLt.
  destruct (Nat.eqb_spec (Count b "/") (Count a "/")) as [E|E].
  - rewrite string_compare_gt_lt. destruct (String.compare b a); split; intros H;
      try discriminate; try reflexivity; try (right; split; congruence);
      destruct H as [H|[_ H]]; try lia; congruence.
  - rewrite Nat.ltb_lt. split; [auto|]. intros [H|[H _]]; [exact H|congruence].
Qed.

Lemma processedBefore_irrefl a : ~ processedBefore a a.
Proof. intros [H|[_ H]]; [lia|]. rewrite string_compare_refl in H. discriminate. Qed.

Lemma processedBefore_trans a b c :
  processedBefore a b -> processedBefore b c -> processedBefore a c.
Proof.
  unfold processedBefore. rewrite !string_compare_gt_lt.
  intros [H1|[E1 H1]] [H2|[E2 H2]]; try (left; lia).
  right. split; [congruence|]. eapply string_compare_lt_trans; eauto.
Qed.

Lemma processedBefore_total a b : a = b \/ processedBefore a b \/ processedBefore b a.
Proof.
  unfold processedBefore.
  destruct (Nat.lt_trichotomy (Count a "/") (Count b "/")) as [H|[H|H]]; [auto|..|auto].
  destruct (String.compare a b) eqn:E.
  - left. now apply String.compare_eq_iff.
  - right; right; right. split; [congruence|]. now apply string_compare_gt_lt.
  - right; left; right. auto.
Qed.

Section SortFacts.

Variable less : string -> string -> bool.

Lemma sortInsert_perm x l : Permutation (sortInsert less x l) (x :: l).
Proof.
  induction l as [|y l IH]; simpl; [reflexivity|].
  destruct (less x y); [reflexivity|].
  rewrite IH. apply perm_swap.
Qed.

Lemma sortSort_perm l : Permutation (sortSort less l) l.
Proof.
  induction l as [|x l IH]; simpl; [reflexivity|].
  rewrite sortInsert_perm. now constructor.
Qed.

Hypothesis less_trans : forall a b c, less a b = true -> less b c = true -> less a c = true.
Hypothesis less_total : forall a b, a = b \/ less a b = true \/ less b a = true.

Lemma sortInsert_sorted x l :
  ~ In x l ->
  StronglySorted (fun a b => less a b = true) l ->
  StronglySorted (fun a b => less a b = true) (sortInsert less x l).
Proof.
  induction l as [|y l IH]; simpl; intros Hx Hs.
  - repeat constructor.
  - apply StronglySorted_inv in Hs as [Hs Hy].
    destruct (less x y) eqn:E.
    + constructor; [now constructor|]. constructor; [exact E|].
      eapply List.Forall_impl; [|exact Hy]. intros z Hz. simpl in Hz. eauto.
    + constructor.
      * apply IH; [tauto|exact Hs].
      * eapply Permutation_Forall; [symmetry; apply sortInsert_perm|].
        constructor; [|exact Hy].
        destruct (less_total x y) as [->|[H|H]]; [tauto|congruence|exact H].
  Qed.

Lemma sortSort_sorted l :
  List.NoDup l -> StronglySorted (fun a b => less a b = true) (sortSort less l).
Proof.
  induction 1 as [|x l Hx Hl IH]; simpl; [constructor|].
  apply sortInsert_sorted; [|exact IH].
  intros Hin. apply Hx. eapply Permutation_in; [apply sortSort_perm|exact Hin].
Qed.

End SortFacts.

(** Two arrangements of the same keys that both respect a strict order are
    the same list: the result of [sort.Sort] does not depend on its algorithm
    nor on the order the map yields its keys in. *)
Lemma sorted_perm_unique (R : string -> string -> Prop) :
  (forall a, ~ R a a) -> (forall a b c, R a b -> R b c -> R a c) ->
  forall l1 l2, StronglySorted R l1 -> StronglySorted R l2 -> Permutation l1 l2 -> l1 = l2.
Proof.
  intros Hirr Htr. induction l1 as [|x l1 IH]; intros l2 H1 H2 HP.
  - now apply Permutation_nil in HP.
  - destruct l2 as [|y l2]; [now apply Permutation_sym, Permutation_nil in HP|].
    apply StronglySorted_inv in H1 as [H1 Hx]. apply StronglySorted_inv in H2 as [H2 Hy].
    assert (x = y) as ->.
    { assert (Hxin : In x (y :: l2)) by (eapply Permutation_in; [exact HP|now left]).
      assert (Hyin : In y (x :: l1)) by (eapply Permutation_in; [symmetry; exact HP|now left]).
      destruct Hxin as [E|Hin]; [auto|]. destruct Hyin as [E|Hin']; [auto|].
      rewrite List.Forall_forall in Hx, Hy. exfalso. apply (Hirr x). eauto. }
    f_equal. apply IH; auto. eapply Permutation_cons_inv; eauto.
Qed.

Lemma mapKeys_NoDup {A} (m : gmap string A) : List.NoDup (mapKeys m).
Proof. apply NoDup_ListNoDup, NoDup_fst_map_to_list. Qed.

Lemma elem_of_mapKeys {A} (m : gmap string A) k : In k (mapKeys m) <-> is_Some (m !! k).
Proof.
  unfold mapKeys. rewrite <- list_elem_of_In, list_elem_of_fmap. split.
  - intros [[k' x] [-> H]]. apply elem_of_map_to_list in H. eauto.
  - intros [x H]. exists (k, x). split; [reflexivity|]. now apply elem_of_map_to_list.
Qed.

Lemma sortTemplates_perm tpls : Permutation (sortTemplates tpls) (mapKeys tpls).
Proof. apply sortSort_perm. Qed.

Lemma sortTemplates_In tpls k : In k (sortTemplates tpls) <-> is_Some (tpls !! k).
Proof.
  rewrite <- elem_of_mapKeys. split; apply Permutation_in;
    [apply sortTemplates_perm|symmetry; apply sortTemplates_perm].
Qed.

Lemma StronglySorted_weaken {A} (R R' : A -> A -> Prop) l :
  (forall a b, R a b -> R' a b) -> StronglySorted R l -> StronglySorted R' l.
Proof.
  intros HR. induction 1 as [|x l Hs IH Hx]; constructor; [exact IH|].
  eapply List.Forall_impl; [|exact Hx]. auto.
Qed.

Lemma sortTemplates_sorted tpls : StronglySorted processedBefore (sortTemplates tpls).
Proof.
  eapply StronglySorted_weaken; [|apply sortSort_sorted].
  - intros a b H. apply reverseLess_spec, H.
  - intros a b c. rewrite !reverseLess_spec. apply processedBefore_trans.
  - intros a b. rewrite !reverseLess_spec. apply processedBefore_total.
  - apply mapKeys_NoDup.
Qed.

Lemma sortTemplates_unique tpls l :
  Permutation l (mapKeys tpls) -> StronglySorted processedBefore l -> l = sortTemplates tpls.
Proof.
  intros HP HS. apply (sorted_perm_unique processedBefore); auto.
  - apply processedBefore_irrefl.
  - apply processedBefore_trans.
  - apply sortTemplates_sorted.
  - rewrite HP. symmetry. apply sortTemplates_perm.
Qed.

(** C2 (as amended). The processing order lists every key of the map once,
    keys with more separators first and, among keys with the same number of
    separators, in descending lexicographic order: [sort.Reverse] turns the
    whole comparison around, the comparison of the paths included. *)
Theorem C2_sortTemplates_deepest_first_then_descending tpls :
  List.NoDup (sortTemplates tpls) /\
  (forall k, In k (sortTemplates tpls) <-> is_Some (tpls !! k)) /\
  StronglySorted processedBefore (sortTemplates tpls).
Proof.
  split; [|split].
  - eapply Permutation_NoDup; [symmetry; apply sortTemplates_perm|apply mapKeys_NoDup].
  - apply sortTemplates_In.
  - apply sortTemplates_sorted.
Qed.

(** C2, the claim as stated fails: of two templates of one directory the
    greater name is processed first. *)
Lemma C2_ascending_order_refuted :
  let r := zeroRenderable in
  let tpls : gmap string renderable :=
    {[ "app/templates/a.yaml" := r; "app/templates/b.yaml" := r ]} in
  sortTemplates tpls = ["app/templates/b.yaml"; "app/templates/a.yaml"] /\
  ~ StronglySorted specifiedBefore (sortTemplates tpls).
Proof.
  assert (E : sortTemplates {[ "app/templates/a.yaml" := zeroRenderable;
                               "app/templates/b.yaml" := zeroRenderable ]}
              = ["app/templates/b.yaml"; "app/templates/a.yaml"]) by (vm_compute; exact eq_refl).
  simpl. rewrite E. split; [reflexivity|].
  intros H. apply StronglySorted_inv in H as [_ H].
  apply Forall_inv in H. destruct H as [H|[_ H]]; vm_compute in H; [lia|discriminate].
Qed.

(** ** The renderer *)

Lemma omap_id_replicate_None {A} n (es : list A) :
  omap id (replicate n None ++ map Some es)%list = es.
Proof.
  induction n as [|n IH]; simpl; [|exact IH].
  induction es as [|e es IHes]; [reflexivity|].
  change (omap id (map Some (e :: es))) with (e :: omap id (map Some es)).
  f_equal. exact IHes.
Qed.

Lemma errorsJoin_None n es :
  errorsJoin (replicate n None ++ map Some es)%list = None <-> es = [].
Proof.
  unfold errorsJoin. rewrite omap_id_replicate_None.
  destruct es; split; congruence.
Qed.

Lemma fold_insert_notin (tr : list (string * (string * option goError)))
    (m : gmap string string) k :
  ~ In k (map fst tr) ->
  fold_left (fun m x => <[fst x := fst (snd x)]> m) tr m !! k = m !! k.
Proof.
  revert m. induction tr as [|[k' [o e]] tr IH]; intros m Hn; cbn; [reflexivity|].
  rewrite IH by (intros ?; apply Hn; now right).
  apply lookup_insert_ne. intros ->. apply Hn. now left.
Qed.

Lemma fold_insert_in (tr : list (string * (string * option goError)))
    (m : gmap string string) k out oe :
  List.NoDup (map fst tr) -> In (k, (out, oe)) tr ->
  fold_left (fun m x => <[fst x := fst (snd x)]> m) tr m !! k = Some out.
Proof.
  revert m. induction tr as [|[k' [o e]] tr IH]; intros m Hnd Hin; [destruct Hin|].
  cbn in Hnd. apply List.NoDup_cons_iff in Hnd as [Hk' Hnd]. cbn.
  destruct Hin as [[= -> -> ->]|Hin].
  - rewrite fold_insert_notin by exact Hk'. apply lookup_insert_eq.
  - now apply IH.
Qed.

Section RendererFacts.

Variable T : Type.
Variable Parse : T -> string -> string -> T * option goError.
Variable ExecuteTemplate :
  T -> string -> loc -> gmap loc Values -> (string * execOutcome) * (T * gmap loc Values).

#[local] Abbreviation renderTemplate' := (renderTemplate T ExecuteTemplate).
#[local] Abbreviation renderTemplates' := (renderTemplates T Parse ExecuteTemplate).
#[local] Abbreviation renderLoop' := (renderLoop T ExecuteTemplate).
#[local] Abbreviation renderTrace' := (renderTrace T ExecuteTemplate).
#[local] Abbreviation parseLoop' := (parseLoop T Parse).

(** [renderTemplate] writes the [Template] entry into the scope the
    renderable refers to and runs the evaluator on the store so obtained; the
    store it returns is the one the evaluator leaves. *)
Lemma renderTemplate_store filename r t h l scope :
  vals r = Some l -> h !! l = Some scope ->
  snd (renderTemplate' filename r (t, h)) =
  snd (ExecuteTemplate t filename l
         (<[l := <["Template" := templateInfo filename r]> scope]> h)).
Proof.
  intros Hl Hs. unfold renderTemplate. rewrite Hl, Hs.
  destruct (ExecuteTemplate t filename l _) as [[buf [|e|p]] st']; reflexivity.
Qed.

(** A failed execution leaves the empty string. *)
Lemma renderTemplate_failed filename r st out e st' :
  renderTemplate' filename r st = ((out, Some e), st') -> out = EmptyString.
Proof.
  unfold renderTemplate. destruct st as [t h].
  destruct (vals r) as [l|]; [|now intros [= <- _ _]].
  destruct (h !! l) as [scope|]; [|now intros [= <- _ _]].
  destruct (ExecuteTemplate t filename l _) as [[buf [|e'|p]] st2];
    intros [= <- ?]; reflexivity || discriminate.
Qed.


Lemma parseLoop_app tpls pre rest t :
  parseLoop' tpls (pre ++ rest)%list t =
  match parseLoop' tpls pre t with
  | (t1, None) => parseLoop' tpls rest t1
  | r => r
  end.
Proof.
  revert t. induction pre as [|f pre IH]; intros t; simpl; [reflexivity|].
  destruct (Parse t f _) as [t' [e|]]; [reflexivity|apply IH].
Qed.


(** The names the second loop hands to [renderTemplate] are the keys that
    are not partials, in order. *)
Lemma renderTrace_keys tpls keys st :
  map fst (renderTrace' tpls keys st) = List.filter (fun k => negb (isPartial k)) keys.
Proof.
  revert st. induction keys as [|f keys IH]; intros st; simpl; [reflexivity|].
  destruct (isPartial f); simpl; [apply IH|].
  destruct (renderTemplate' f _ st) as [res st']. simpl. f_equal. apply IH.
Qed.

Lemma renderLoop_trace tpls keys results errs st :
  fst (renderLoop' tpls keys results errs st) =
  (fold_left (fun m x => <[fst x := fst (snd x)]> m) (renderTrace' tpls keys st) results,
   (errs ++ map Some (traceErrors (renderTrace' tpls keys st)))%list).
Proof.
  revert results errs st. induction keys as [|f keys IH]; intros results errs st; simpl.
  - now rewrite List.app_nil_r.
  - destruct (isPartial f); [apply IH|].
    destruct (renderTemplate' f _ st) as [[rendered err] st']. rewrite IH. simpl.
    f_equal. destruct err as [e|]; simpl; [|reflexivity].
    now rewrite <- List.app_assoc.
Qed.

(** C3 (as amended). [renderTemplate] makes no copy of the scope: the
    [Template] entry, holding the name and the base path, is written into
    the map the entry refers to, and the evaluator is run on the store so
    changed. In that store the scope of the entry has the [Template] entry
    and its other keys as before; the store after the call is the one the
    evaluator leaves. *)
Theorem C3_renderTemplate_writes_Template_into_stored_scope filename r t h l scope :
  vals r = Some l -> h !! l = Some scope ->
  let scope' := <["Template" := templateInfo filename r]> scope in
  let h' := <[l := scope']> h in
  let res := renderTemplate' filename r (t, h) in
  snd res = snd (ExecuteTemplate t filename l h') /\
  (forall buf st', ExecuteTemplate t filename l h' = ((buf, ExecOk), st') ->
                   fst res = (ReplaceAll buf noValue EmptyString, None)) /\
  h' !! l = Some scope' /\
  (exists m, scope' !! "Template" = Some (VValues m) /\
             m !! "Name" = Some (VStr filename) /\
             m !! "BasePath" = Some (VStr (basePath r))) /\
  (forall k, k <> "Template" -> scope' !! k = scope !! k).
Proof.
  intros Hl Hs scope' h' res. subst res.
  split; [now apply renderTemplate_store|].
  split.
  { intros buf st' HE. unfold renderTemplate. rewrite Hl, Hs. fold scope' h'. now rewrite HE. }
  split; [apply lookup_insert_eq|]. split.
  { eexists. split; [apply lookup_insert_eq|]. split; [apply lookup_insert_eq|].
    rewrite lookup_insert_ne by discriminate. apply lookup_insert_eq. }
  intros k Hk. now apply lookup_insert_ne.
Qed.

(** C6. When the parsing of an entry fails (the entries before it in the
    processing order having been parsed), the pass returns the empty map
    and the rewritten error; the store of scopes is untouched and the
    evaluator has been asked to parse only. For an evaluator text of the
    form [template: <file:line>: ...: <message>] the error reads
    [parse error at (<file:line>): <message>]. *)
Theorem C6_parse_failure_aborts_the_pass tpls t h pre f post t1 t2 e :
  sortTemplates tpls = (pre ++ f :: post)%list ->
  parseLoop' tpls pre t = (t1, None) ->
  Parse t1 f (tpl (default zeroRenderable (tpls !! f))) = (t2, Some e) ->
  renderTemplates' tpls (t, h) = ((∅, Some (cleanupParseError f e)), (t2, h)) /\
  (forall loc mid msg,
      errText e = Join ("template" :: loc :: mid ++ [msg])%list ": " ->
      List.Forall (fun tok => Contains tok ": " = false) (loc :: mid ++ [msg])%list ->
      cleanupParseError f e = plainError ("parse error at (" ++ loc ++ "): " ++ msg)).
Proof.
  intros Hk Hpre Hf. split.
  - unfold renderTemplates. rewrite Hk, parseLoop_app. cbn [fst snd]. rewrite Hpre.
    cbn [parseLoop]. now rewrite Hf.
  - intros loc mid msg He HF. unfold cleanupParseError. rewrite He.
    rewrite Split_Join; [| reflexivity | discriminate | constructor; [reflexivity|exact HF]].
    cbn [nth]. replace (List.last _ EmptyString) with msg.
    + destruct (mid ++ [msg])%list eqn:E; [now destruct mid|reflexivity].
    + change ("template" :: loc :: mid ++ [msg])%list
        with (("template" :: loc :: mid) ++ [msg])%list.
      now rewrite List.last_last.
Qed.


Lemma renderTrace_failed tpls keys st k out e :
  In (k, (out, Some e)) (renderTrace' tpls keys st) -> out = EmptyString.
Proof.
  revert st. induction keys as [|f keys IH]; intros st; cbn; [tauto|].
  destruct (isPartial f); [apply IH|].
  destruct (renderTemplate' f _ st) as [[o oe] st'] eqn:E. cbn.
  intros [[= -> -> ->]|Hin]; [|eapply IH; eauto].
  eapply renderTemplate_failed; eauto.
Qed.

Lemma traceErrors_cons tr e es :
  traceErrors tr = e :: es -> exists k out, In (k, (out, Some e)) tr.
Proof.
  induction tr as [|[k [o [e'|]]] tr IH].
  - discriminate.
  - intros [= -> _]. exists k, o. now left.
  - intros H. destruct (IH H) as (k' & o' & Hin). exists k', o'. now right.
Qed.

Lemma traceErrors_In tr k out e :
  In (k, (out, Some e)) tr -> traceErrors tr <> [].
Proof.
  induction tr as [|[k' [o [e'|]]] tr IH]; [intros []|discriminate|].
  intros [[=]|Hin]. exact (IH Hin).
Qed.

(** C10. When every entry parses, the output map has a key for exactly the
    entries that are not partials; each is mapped to what its call of
    [renderTemplate] returned, which is the empty string when the call
    failed; and the error returned with the map is non-nil exactly when
    one of the calls failed. *)
Theorem C10_failed_entries_stay_in_the_output tpls st t' :
  parseLoop' tpls (sortTemplates tpls) (fst st) = (t', None) ->
  let res := renderTemplates' tpls st in
  let trace := renderTrace' tpls (sortTemplates tpls) (t', snd st) in
  (forall k, is_Some (fst (fst res) !! k) <-> is_Some (tpls !! k) /\ isPartial k = false) /\
  (forall k, is_Some (tpls !! k) -> isPartial k = false ->
             exists out oe, In (k, (out, oe)) trace) /\
  (forall k out oe, In (k, (out, oe)) trace ->
                    fst (fst res) !! k = Some out /\ (is_Some oe -> out = EmptyString)) /\
  (is_Some (snd (fst res)) <-> exists k out e, In (k, (out, Some e)) trace).
Proof.
  intros HP res trace.
  assert (Hres : fst res =
    (fold_left (fun m x => <[fst x := fst (snd x)]> m) trace ∅,
     errorsJoin (replicate (size tpls) None ++ map Some (traceErrors trace))%list)).
  { subst res trace. unfold renderTemplates. rewrite HP.
    pose proof (renderLoop_trace tpls (sortTemplates tpls) ∅
                  (replicate (size tpls) None) (t', snd st)) as HL.
    destruct (renderLoop' _ _ _ _ _) as [[results errs] st']. cbn [fst] in *.
    now injection HL as -> ->. }
  assert (Hkeys : forall k, In k (map fst trace) <-> is_Some (tpls !! k) /\ isPartial k = false).
  { intros k. subst trace. rewrite renderTrace_keys, List.filter_In, sortTemplates_In.
    now rewrite negb_true_iff. }
  assert (Hnd : List.NoDup (map fst trace)).
  { subst trace. rewrite renderTrace_keys. apply List.NoDup_filter.
    eapply Permutation_NoDup; [symmetry; apply sortTemplates_perm|apply mapKeys_NoDup]. }
  assert (Hin : forall k, In k (map fst trace) -> exists out oe, In (k, (out, oe)) trace).
  { intros k Hk. apply List.in_map_iff in Hk as [[k' [o oe]] [E Hk]]. cbn in E. subst k'. eauto. }
  rewrite Hres. cbn [fst snd]. split; [|split; [|split]].
  - intros k. rewrite <- Hkeys. split.
    + intros [x Hx].
      destruct (List.in_dec string_dec k (map fst trace)) as [Hk|Hk]; [exact Hk|].
      rewrite fold_insert_notin, lookup_empty in Hx by exact Hk. discriminate.
    + intros Hk. destruct (Hin k Hk) as (out & oe & Hko).
      erewrite fold_insert_in; eauto.
  - intros k Hk Hp. apply Hin, Hkeys. auto.
  - intros k out oe Hko. split; [eapply fold_insert_in; eauto|].
    intros [e ->]. eapply renderTrace_failed; eauto.
  - split.
    + intros [e He]. destruct (traceErrors trace) as [|e0 es] eqn:E.
      * pose proof (proj2 (errorsJoin_None (size tpls) []) eq_refl) as HN.
        rewrite HN in He. discriminate.
      * destruct (traceErrors_cons _ _ _ E) as (k & out & Hin'). eauto.
    + intros (k & out & e & Hko). apply traceErrors_In in Hko.
      destruct (errorsJoin _) eqn:E; [eauto|].
      apply errorsJoin_None in E. contradiction.
Qed.

End RendererFacts.




(** The engine parses the partial of the sample entries and renders the
    two other entries only. *)
Example partial_sample :
  let res := renderTemplates engineT (engineParse sampleParser)
               (engineExecute sampleParser normalMode 10) demoTpls
               ((∅, freshState), demoStore) in
  isPartial "app/templates/_helpers.tpl" = true /\
  fst (fst res) !! "app/templates/_helpers.tpl" = None /\
  is_Some (fst (fst (snd res)) !! "app/templates/_helpers.tpl") /\
  fst (fst res) = {[ "app/templates/a.yaml" := "hello"; "app/templates/b.yaml" := "port: " ]}.
Proof.
  cbv zeta. split; [vm_compute; exact eq_refl|]. split; [vm_compute; exact eq_refl|].
  split; [vm_compute; eauto|vm_compute; exact eq_refl].
Qed.

(** *** The renderer on the model evaluator *)

Lemma C3_witness :
  let exec := engineExecute sampleParser normalMode 10 in
  let scope : Values := {[ "Values" := VMap ∅ ]} in
  let scope' := <["Template" := templateInfo "app/templates/a.yaml" demoRenderable]> scope in
  let h' := <[0%nat := scope']> demoStore in
  let res := renderTemplate engineT exec "app/templates/a.yaml" demoRenderable
               (demoEngine, demoStore) in
  snd res = snd (exec demoEngine "app/templates/a.yaml" 0%nat h') /\
  (forall buf st', exec demoEngine "app/templates/a.yaml" 0%nat h' = ((buf, ExecOk), st') ->
                   fst res = (ReplaceAll buf noValue EmptyString, None)) /\
  h' !! 0%nat = Some scope' /\
  (exists m, scope' !! "Template" = Some (VValues m) /\
             m !! "Name" = Some (VStr "app/templates/a.yaml") /\
             m !! "BasePath" = Some (VStr (basePath demoRenderable))) /\
  (forall k, k <> "Template" -> scope' !! k = scope !! k).
Proof.
  exact (C3_renderTemplate_writes_Template_into_stored_scope engineT
           (engineExecute sampleParser normalMode 10)
           "app/templates/a.yaml" demoRenderable demoEngine demoStore 0%nat
           {[ "Values" := VMap ∅ ]} eq_refl eq_refl).
Defined.

(** C3, the claim as stated fails: rendering an entry adds the [Template]
    key to the scope stored for it. *)
Lemma C3_stored_scope_is_modified :
  let exec := engineExecute sampleParser normalMode 10 in
  let res := renderTemplate engineT exec "app/templates/a.yaml" demoRenderable
               (demoEngine, demoStore) in
  fst res = ("hello", None) /\
  (demoStore !! 0%nat ≫= (.!! "Template")) = None /\
  (snd (snd res) !! 0%nat ≫= (.!! "Template")) =
    Some (VValues {[ "Name" := VStr "app/templates/a.yaml";
                     "BasePath" := VStr "app/templates" ]}) /\
  snd (snd res) !! 0%nat <> demoStore !! 0%nat.
Proof.
  cbv zeta. split; [vm_compute; exact eq_refl|]. split; [vm_compute; exact eq_refl|].
  split; [vm_compute; exact eq_refl|].
  intros H. apply (f_equal (fun o : option Values => o ≫= (.!! "Template"))) in H.
  vm_compute in H. discriminate.
Qed.

Lemma C6_witness :
  renderTemplates engineT (engineParse sampleParser) (engineExecute sampleParser normalMode 10)
    brokenTpls ((∅, freshState), demoStore)
  = ((∅, Some (plainError "parse error at (app/templates/z.yaml:1): missing value for if")),
     ((∅, freshState), demoStore)).
Proof.
  destruct (C6_parse_failure_aborts_the_pass engineT (engineParse sampleParser)
              (engineExecute sampleParser normalMode 10)
              brokenTpls (∅, freshState) demoStore
              [] "app/templates/z.yaml" ["app/templates/a.yaml"]
              (∅, freshState) (∅, freshState)
              (plainError "template: app/templates/z.yaml:1: missing value for if"))
    as [H1 H2]; [vm_compute; exact eq_refl..|].
  rewrite (H2 "app/templates/z.yaml:1" [] "missing value for if" eq_refl) in H1
    by repeat constructor.
  exact H1.
Defined.

Lemma C10_witness :
  let exec := engineExecute sampleParser strictMode 10 in
  let parse := engineParse sampleParser in
  let st : state engineT := ((∅, freshState), demoStore) in
  let res := renderTemplates engineT parse exec demoTpls st in
  let trace := renderTrace engineT exec demoTpls (sortTemplates demoTpls)
                 (fst (parseLoop engineT parse demoTpls (sortTemplates demoTpls) (fst st)),
                  snd st) in
  (forall k, is_Some (fst (fst res) !! k) <-> is_Some (demoTpls !! k) /\ isPartial k = false) /\
  (forall k, is_Some (demoTpls !! k) -> isPartial k = false ->
             exists out oe, In (k, (out, oe)) trace) /\
  (forall k out oe, In (k, (out, oe)) trace ->
                    fst (fst res) !! k = Some out /\ (is_Some oe -> out = EmptyString)) /\
  (is_Some (snd (fst res)) <-> exists k out e, In (k, (out, Some e)) trace).
Proof.
  apply (C10_failed_entries_stay_in_the_output engineT (engineParse sampleParser)
           (engineExecute sampleParser strictMode 10) demoTpls
           ((∅, freshState), demoStore)).
  vm_compute. exact eq_refl.
Defined.

(** The pass over the three sample entries in strict mode: the partial is
    not in the map, the entry that fails is mapped to the empty string and
    the error is reported. *)
Example renderTemplates_sample :
  let res := renderTemplates engineT (engineParse sampleParser)
               (engineExecute sampleParser strictMode 10) demoTpls
               ((∅, freshState), demoStore) in
  fst (fst res) = {[ "app/templates/a.yaml" := "hello"; "app/templates/b.yaml" := "" ]} /\
  (errText <$> snd (fst res)) =
    Some ("template: app/templates/b.yaml:1:16: executing " ++ quote "app/templates/b.yaml" ++
          " at <.Values.missing>: map has no entry for key " ++ quote "missing").
Proof. cbv zeta. split; vm_compute; exact eq_refl. Qed.

(** ** The function extensions *)

(** [include] at the limit: the call fails at once, whatever the template
    is, and nothing is executed (the result does not depend on [execute]). *)
Lemma includeFun_over_limit execute name data st v :
  includedNames st !! name = Some v -> (recursionMaxNums < v)%Z ->
  includeFun execute name data st = Some ((EmptyString, Some (limitError name)), st).
Proof.
  intros Hv Hlt. unfold includeFun. rewrite Hv.
  destruct (Z.gtb_spec v recursionMaxNums); [reflexivity|lia].
Qed.

(** [include] below the limit: the depth of the name is raised by one, the
    template is executed, and the depth it then has is lowered by one. *)
Lemma includeFun_enter execute name data st :
  (depth st name <= recursionMaxNums)%Z ->
  includeFun execute name data st =
  match execute name data (setIncluded name (depth st name + 1)%Z st) with
  | None => None
  | Some (r, st2) => Some (r, setIncluded name (depth st2 name - 1)%Z st2)
  end.
Proof.
  unfold includeFun, depth. intros Hle.
  destruct (includedNames st !! name) as [v|]; cbn in *.
  - destruct (Z.gtb_spec v recursionMaxNums); [lia|].
    destruct (execute _ _ _) as [[[out err] st2]|]; reflexivity.
  - destruct (execute _ _ _) as [[[out err] st2]|]; reflexivity.
Qed.

Lemma depth_setIncluded name v st n :
  depth (setIncluded name v st) n = if decide (name = n) then v else depth st n.
Proof.
  unfold depth, setIncluded. cbn [includedNames]. rewrite lookup_insert.
  destruct (decide (name = n)); reflexivity.
Qed.

(** A call of [include] leaves every depth as it found it, when the
    execution it runs does. *)
Lemma includeFun_balanced execute name data st r st' :
  (forall n d s r0 s', execute n d s = Some (r0, s') -> forall x, depth s' x = depth s x) ->
  includeFun execute name data st = Some (r, st') ->
  forall x, depth st' x = depth st x.
Proof.
  intros Hex H x.
  destruct (Z.le_gt_cases (depth st name) recursionMaxNums) as [Hle|Hgt].
  - rewrite includeFun_enter in H by exact Hle.
    destruct (execute _ _ _) as [[r0 st2]|] eqn:E; [|discriminate].
    injection H as <- <-. specialize (Hex _ _ _ _ _ E).
    rewrite depth_setIncluded. destruct (decide (name = x)) as [->|N].
    + rewrite Hex, depth_setIncluded. destruct (decide (x = x)); [lia|congruence].
    + rewrite Hex, depth_setIncluded. destruct (decide (name = x)); [congruence|reflexivity].
  - unfold depth in Hgt. destruct (includedNames st !! name) as [v|] eqn:Ev; cbn in Hgt.
    + rewrite (includeFun_over_limit _ _ _ _ v Ev) in H by lia. now injection H as _ <-.
    + unfold recursionMaxNums in Hgt. lia.
Qed.

Lemma includeFun_mono (e1 e2 : string -> value -> fstate -> execResult) name data st r :
  (forall n d s r0, e1 n d s = Some r0 -> e2 n d s = Some r0) ->
  includeFun e1 name data st = Some r -> includeFun e2 name data st = Some r.
Proof.
  intros Hm. unfold includeFun.
  destruct (includedNames st !! name) as [v|]; [destruct (v >? recursionMaxNums)%Z; [auto|]|];
    (destruct (e1 _ _ _) as [r0|] eqn:E; [|discriminate]; now rewrite (Hm _ _ _ _ E)).
Qed.

Lemma tplFun_mono parser parent
    (r1 r2 : namespace -> string -> tmpl -> fstate -> execResult) text vals st r :
  (forall ns n t s r0, r1 ns n t s = Some r0 -> r2 ns n t s = Some r0) ->
  tplFun parser parent r1 text vals st = Some r ->
  tplFun parser parent r2 text vals st = Some r.
Proof.
  intros Hm. unfold tplFun. destruct (parser gotpl text) as [main defines|msg]; [|auto].
  destruct (r1 _ _ _ _) as [r0|] eqn:E; [|discriminate]. now rewrite (Hm _ _ _ _ _ E).
Qed.


Lemma tplFun_balanced parser parent runIn text vals st r st' :
  (forall ns n t s r0 s', runIn ns n t s = Some (r0, s') -> forall x, depth s' x = depth s x) ->
  tplFun parser parent runIn text vals st = Some (r, st') ->
  forall x, depth st' x = depth st x.
Proof.
  intros Hr. unfold tplFun. destruct (parser gotpl text) as [main defines|msg].
  - destruct (runIn _ _ _ _) as [[[buf [e|]] st2]|] eqn:E; try discriminate;
      intros [= _ <-]; eapply Hr; eauto.
  - now intros [= _ <-].
Qed.

Lemma requiredFun_depth opts warn val st x :
  depth (snd (requiredFun opts warn val st)) x = depth st x.
Proof.
  unfold requiredFun. destruct val; try reflexivity.
  - destruct (LintMode opts); reflexivity.
  - destruct (String.eqb s EmptyString); [destruct (LintMode opts)|]; reflexivity.
Qed.

Lemma failFun_depth opts msg st x : depth (snd (failFun opts msg st)) x = depth st x.
Proof. unfold failFun. destruct (LintMode opts); reflexivity. Qed.

Section EvaluatorFacts.

Variable parser : string -> string -> parsed.
Variable opts : engineOptions.

#[local] Abbreviation run := (runTmpl parser opts).
#[local] Abbreviation exec := (executeTemplate parser opts).

(** The steps of an execution. *)
Lemma run_TDone f ns tn buf st : run (S f) ns tn TDone buf st = Some ((buf, None), st).
Proof. reflexivity. Qed.

Lemma run_TText f ns tn s k buf st :
  run (S f) ns tn (TText s k) buf st = run (S f) ns tn k (buf ++ s) st.
Proof. reflexivity. Qed.

Lemma run_TMissingKey f ns tn at_ key k buf st :
  run (S f) ns tn (TMissingKey at_ key k) buf st =
  if Strict opts then Some ((buf, Some (missingKeyError at_ tn key)), st)
  else run (S f) ns tn k (buf ++ noValue) st.
Proof. reflexivity. Qed.

Lemma run_TInclude f ns tn at_ name data k buf st :
  run (S f) ns tn (TInclude at_ name data k) buf st =
  match includeFun (exec f ns) name data st with
  | None => None
  | Some ((_, Some e), st') => Some ((buf, Some (callError at_ tn "include" e)), st')
  | Some ((out, None), st') => run (S f) ns tn (k out) buf st'
  end.
Proof. reflexivity. Qed.

Lemma run_TTpl f ns tn at_ text data k buf st :
  run (S f) ns tn (TTpl at_ text data k) buf st =
  match tplFun parser ns (fun ns' name t' st0 => run f ns' name t' EmptyString st0)
          text data st with
  | None => None
  | Some ((_, Some e), st') => Some ((buf, Some (callError at_ tn "tpl" e)), st')
  | Some ((out, None), st') => run (S f) ns tn (k out) buf st'
  end.
Proof. reflexivity. Qed.

Lemma run_TRequired f ns tn at_ warn val k buf st :
  run (S f) ns tn (TRequired at_ warn val k) buf st =
  match requiredFun opts warn val st with
  | ((_, Some e), st') => Some ((buf, Some (callError at_ tn "required" e)), st')
  | ((v, None), st') => run (S f) ns tn (k v) buf st'
  end.
Proof. reflexivity. Qed.

Lemma run_TFail f ns tn at_ msg k buf st :
  run (S f) ns tn (TFail at_ msg k) buf st =
  match failFun opts msg st with
  | ((_, Some e), st') => Some ((buf, Some (callError at_ tn "fail" e)), st')
  | ((out, None), st') => run (S f) ns tn (k out) buf st'
  end.
Proof. reflexivity. Qed.

(** A larger budget does not change a result. *)
Lemma run_mono f : forall ns tn t buf st r,
  run f ns tn t buf st = Some r -> run (S f) ns tn t buf st = Some r.
Proof.
  induction f as [|f IHf]; [discriminate|].
  assert (Hexec : forall ns n d s r0, exec f ns n d s = Some r0 -> exec (S f) ns n d s = Some r0).
  { intros ns n d s r0. unfold executeTemplate. destruct (ns !! n); [apply IHf|auto]. }
  intros ns tn t. induction t as [|s k IH|at_ key k IH|at_ name data k IH|at_ text data k IH
                                 |at_ warn val k IH|at_ msg k IH]; intros buf st r.
  - rewrite !run_TDone. auto.
  - rewrite !run_TText. apply IH.
  - rewrite !run_TMissingKey. destruct (Strict opts); [auto|apply IH].
  - rewrite !run_TInclude.
    destruct (includeFun (exec f ns) name data st) as [[[out oe] st']|] eqn:E; [|discriminate].
    rewrite (includeFun_mono _ _ _ _ _ _ (Hexec ns) E). destruct oe; [auto|apply IH].
  - rewrite !run_TTpl.
    destruct (tplFun parser ns _ text data st) as [[[out oe] st']|] eqn:E; [|discriminate].
    erewrite tplFun_mono; [|intros ns' n t' s r0; apply IHf|exact E].
    destruct oe; [auto|apply IH].
  - rewrite !run_TRequired. destruct (requiredFun opts warn val st) as [[v [e|]] st']; [auto|apply IH].
  - rewrite !run_TFail. destruct (failFun opts msg st) as [[v [e|]] st']; [auto|apply IH].
Qed.

Lemma run_le f f' ns tn t buf st r :
  (f <= f')%nat -> run f ns tn t buf st = Some r -> run f' ns tn t buf st = Some r.
Proof. induction 1 as [|f' Hle IH]; [auto|]. intros Hr. apply run_mono. auto. Qed.

Lemma exec_le f f' ns name data st r :
  (f <= f')%nat -> exec f ns name data st = Some r -> exec f' ns name data st = Some r.
Proof. intros Hle. unfold executeTemplate. destruct (ns !! name); [now apply run_le|auto]. Qed.

(** An execution that returns leaves every depth as it found it. *)
Lemma run_balanced f : forall ns tn t buf st r st',
  run f ns tn t buf st = Some (r, st') -> forall x, depth st' x = depth st x.
Proof.
  induction f as [|f IHf]; [discriminate|].
  assert (Hexec : forall ns n d s r0 s',
             exec f ns n d s = Some (r0, s') -> forall x, depth s' x = depth s x).
  { intros ns n d s r0 s'. unfold executeTemplate.
    destruct (ns !! n); [apply IHf|now intros [= _ <-]]. }
  intros ns tn t. induction t as [|s k IH|at_ key k IH|at_ name data k IH|at_ text data k IH
                                 |at_ warn val k IH|at_ msg k IH]; intros buf st r st'.
  - rewrite run_TDone. now intros [= _ <-].
  - rewrite run_TText. apply IH.
  - rewrite run_TMissingKey. destruct (Strict opts); [now intros [= _ <-]|apply IH].
  - rewrite run_TInclude.
    destruct (includeFun (exec f ns) name data st) as [[[out oe] st2]|] eqn:E; [|discriminate].
    pose proof (includeFun_balanced _ _ _ _ _ _ (Hexec ns) E) as HB.
    destruct oe; [intros [= _ <-]; exact HB|].
    intros H x. rewrite (IH _ _ _ _ _ H x). apply HB.
  - rewrite run_TTpl.
    destruct (tplFun parser ns _ text data st) as [[[out oe] st2]|] eqn:E; [|discriminate].
    assert (HB : forall x, depth st2 x = depth st x).
    { eapply tplFun_balanced; [|exact E]. intros ns' n t' s r0 s'. apply IHf. }
    destruct oe; [intros [= _ <-]; exact HB|].
    intros H x. rewrite (IH _ _ _ _ _ H x). apply HB.
  - rewrite run_TRequired. pose proof (requiredFun_depth opts warn val st) as HB.
    destruct (requiredFun opts warn val st) as [[v [e|]] st2]; cbn [snd] in HB.
    + intros [= _ <-]. exact HB.
    + intros H x. rewrite (IH _ _ _ _ _ H x). apply HB.
  - rewrite run_TFail. pose proof (failFun_depth opts msg st) as HB.
    destruct (failFun opts msg st) as [[v [e|]] st2]; cbn [snd] in HB.
    + intros [= _ <-]. exact HB.
    + intros H x. rewrite (IH _ _ _ _ _ H x). apply HB.
Qed.

End EvaluatorFacts.

(** *** Recursion through [include] *)

Lemma setIncluded_restore name v w st :
  includedNames st !! name = Some v ->
  setIncluded name v (setIncluded name w st) = st.
Proof.
  intros H. destruct st as [inc lg]. unfold setIncluded. cbn in *. f_equal.
  rewrite insert_insert_eq. now apply insert_id.
Qed.

Lemma exec_loop parser opts fuel d st :
  executeTemplate parser opts fuel sampleNamespace "loop" d st =
  runTmpl parser opts fuel sampleNamespace "loop" (selfInclude d) EmptyString st.
Proof. reflexivity. Qed.

(** The template that includes itself, entered with the depth [1001 - k]:
    [k] further executions are started, the last call of [include] fails at
    the limit and the failure comes back through all of them. *)
Lemma loop_level parser opts d : forall k fuel st v,
  (k < fuel)%nat -> (k <= 1001)%nat ->
  includedNames st !! "loop" = Some v -> v = (1001 - Z.of_nat k)%Z ->
  runTmpl parser opts fuel sampleNamespace "loop" (selfInclude d) EmptyString st =
  Some ((EmptyString,
         Some (nestedIncludeError selfSite "loop" (S k) (limitError "loop"))), st).
Proof.
  induction k as [|k IH]; intros fuel st v Hf Hk Hv Ev;
    (destruct fuel as [|fuel]; [lia|]); unfold selfInclude; rewrite run_TInclude.
  - rewrite (includeFun_over_limit _ _ _ _ v Hv) by (unfold recursionMaxNums; lia).
    reflexivity.
  - assert (Hd : depth st "loop" = v) by (unfold depth; now rewrite Hv).
    rewrite includeFun_enter by (rewrite Hd; unfold recursionMaxNums; lia).
    rewrite Hd, exec_loop.
    rewrite (IH fuel (setIncluded "loop" (v + 1)%Z st) (v + 1)%Z);
      [|lia|lia|apply lookup_insert_eq|lia].
    rewrite depth_setIncluded. destruct (decide ("loop" = "loop")); [|congruence].
    replace (v + 1 - 1)%Z with v by lia. rewrite (setIncluded_restore _ _ _ _ Hv).
    reflexivity.
Qed.

Lemma self_include_fails parser opts d fuel :
  (1002 <= fuel)%nat ->
  executeTemplate parser opts fuel sampleNamespace "loop" d freshState =
  Some ((EmptyString,
         Some (nestedIncludeError selfSite "loop" 1002 (limitError "loop"))),
        setIncluded "loop" 0%Z freshState).
Proof.
  intros Hf. rewrite exec_loop.
  destruct fuel as [|fuel]; [lia|]. unfold selfInclude at 1. rewrite run_TInclude.
  rewrite includeFun_enter by (vm_compute; discriminate).
  change (depth freshState "loop") with 0%Z. rewrite exec_loop.
  rewrite (loop_level parser opts d 1000 fuel (setIncluded "loop" (0 + 1)%Z freshState) 1%Z);
    [|lia|lia|reflexivity|reflexivity].
  reflexivity.
Qed.

Lemma countdown_five parser opts fuel :
  (6 <= fuel)%nat ->
  executeTemplate parser opts fuel sampleNamespace "count" (VNum 5) freshState =
  Some (("xxxxx", None), setIncluded "count" 0%Z freshState).
Proof.
  intros Hf. apply (exec_le parser opts 6 fuel); [exact Hf|]. vm_compute. exact eq_refl.
Qed.

(** C4 (as amended). [include] keeps a nesting depth per template name. A
    call fails at once, without executing anything, when the depth the name
    has on entry is above 1000 (the comparison is made before the depth is
    raised, so a name can be entered 1001 deep); otherwise the depth is
    raised by one before the template is executed and lowered by one after,
    so that every call that returns leaves all depths as it found them. A
    template that includes itself without end fails with the recursion-limit
    error, whatever the budget of the model above 1002; one that includes
    itself five times succeeds. *)
Theorem C4_include_depth_is_bounded parser opts :
  (forall execute name data st v,
      includedNames st !! name = Some v -> (1000 < v)%Z ->
      includeFun execute name data st = Some ((EmptyString, Some (limitError name)), st)) /\
  (forall execute name data st,
      (depth st name <= 1000)%Z ->
      includeFun execute name data st =
      match execute name data (setIncluded name (depth st name + 1)%Z st) with
      | None => None
      | Some (r, st2) => Some (r, setIncluded name (depth st2 name - 1)%Z st2)
      end) /\
  (forall fuel ns name data st r st',
      engineInclude parser opts fuel ns name data st = Some (r, st') ->
      forall x, depth st' x = depth st x) /\
  (forall fuel d, (1002 <= fuel)%nat ->
      executeTemplate parser opts fuel sampleNamespace "loop" d freshState =
      Some ((EmptyString,
             Some (nestedIncludeError selfSite "loop" 1002 (limitError "loop"))),
            setIncluded "loop" 0%Z freshState)) /\
  (forall fuel, (6 <= fuel)%nat ->
      executeTemplate parser opts fuel sampleNamespace "count" (VNum 5) freshState =
      Some (("xxxxx", None), setIncluded "count" 0%Z freshState)).
Proof.
  split; [|split; [|split; [|split]]].
  - intros execute name data st v Hv Hlt. now apply (includeFun_over_limit _ _ _ _ v).
  - intros. now apply includeFun_enter.
  - intros fuel ns name data st r st' H. eapply includeFun_balanced; [|exact H].
    intros n d s r0 s'. unfold executeTemplate.
    destruct (ns !! n); [apply run_balanced|now intros [= _ <-]].
  - intros. now apply self_include_fails.
  - intros. now apply countdown_five.
Qed.

(** C4, the claim as stated fails: a call of [include] made when the depth
    of the name is 1000 would raise it above the bound, and still the
    template is executed and the call succeeds; it is the call made at depth
    1001 that fails. *)
Lemma C4_call_at_depth_1000_is_executed :
  let st := setIncluded "count" 1000%Z freshState in
  engineInclude sampleParser normalMode 5 sampleNamespace "count" (VNum 0) st
    = Some ((EmptyString, None), st) /\
  engineInclude sampleParser normalMode 5 sampleNamespace "count" (VNum 1) st
    = Some (("x", Some (callError countSite "count" "include" (limitError "count"))), st).
Proof. vm_compute. split; exact eq_refl. Qed.

(** *** [required] and the error the user sees *)

(** The message a function tunnels between the two delimiters is what
    [cleanupExecError] keeps of the evaluator's error. *)
Lemma cleanupExecError_tunnel filename at_ tname fname warn :
  Contains (location at_) ": " = false ->
  Contains (callPrefix at_ tname fname) warnStartDelim = false ->
  cleanupExecError filename (callError at_ tname fname (plainError (warnWrap warn))) =
  plainError ("execution error at (" ++ location at_ ++ "): " ++ warn).
Proof.
  intros Hloc Hpre. unfold cleanupExecError, callError. cbn [isExecError errText negb plainError].
  unfold SplitN. change (3 - 1)%nat with 2%nat. cbn [genSplit].
  rewrite (Cut_unbordered ": " "template") by reflexivity.
  rewrite (Cut_unbordered ": " (location at_)) by (reflexivity || exact Hloc).
  unfold warnSubmatch, warnWrap.
  rewrite (Cut_unbordered warnStartDelim) by (reflexivity || exact Hpre).
  rewrite CutLast_app_end by discriminate. reflexivity.
Qed.

(** C5 (as amended). [required] returns a value that is neither nil nor the
    empty string as it is, without error. On nil or the empty string it
    fails, outside lint mode, with the message between the two delimiters;
    when the location holds no colon and space, and what the evaluator writes
    in front of the error of the function (the name of the template and the
    action, which it repeats) holds no start delimiter, [cleanupExecError]
    keeps of the evaluator's error the location and the message, with
    nothing added to the message. In lint mode [required] writes a line to
    the log and returns the empty string without error. *)
Theorem C5_required_returns_value_or_fails_with_message opts warn val st :
  (val <> VNil -> val <> VStr EmptyString ->
     requiredFun opts warn val st = ((val, None), st)) /\
  (val = VNil \/ val = VStr EmptyString -> LintMode opts = false ->
     requiredFun opts warn val st = ((val, Some (plainError (warnWrap warn))), st) /\
     forall filename at_ tname,
       Contains (location at_) ": " = false ->
       Contains (callPrefix at_ tname "required") warnStartDelim = false ->
       cleanupExecError filename (callError at_ tname "required" (plainError (warnWrap warn)))
       = plainError ("execution error at (" ++ location at_ ++ "): " ++ warn)) /\
  (val = VNil \/ val = VStr EmptyString -> LintMode opts = true ->
     requiredFun opts warn val st =
     ((VStr EmptyString, None), logPrint ("[INFO] Missing required value: " ++ warn) st)).
Proof.
  split; [|split].
  - intros Hnil Hempty. unfold requiredFun. destruct val; try reflexivity; [congruence|].
    destruct (String.eqb_spec s EmptyString); [subst; congruence|reflexivity].
  - intros Hv Hlint. split.
    + unfold requiredFun. destruct Hv as [->| ->]; cbn; now rewrite Hlint.
    + intros. now apply cleanupExecError_tunnel.
  - intros Hv Hlint. unfold requiredFun. destruct Hv as [->| ->]; cbn; now rewrite Hlint.
Qed.

(** A template that requires an absent value, rendered outside lint mode and
    in lint mode. *)
Example required_sample :
  let store : gmap loc Values := {[ 0%nat := ({[ "Values" := VMap ∅ ]} : Values) ]} in
  fst (renderTemplate engineT (engineExecute sampleParser normalMode 10)
         "app/templates/r.yaml" requireRenderable (requireEngine, store))
  = (EmptyString,
     Some (plainError "execution error at (app/templates/r.yaml:1:3): a name is required")) /\
  fst (renderTemplate engineT (engineExecute sampleParser lintMode 10)
         "app/templates/r.yaml" requireRenderable (requireEngine, store))
  = (EmptyString, None).
Proof. vm_compute. split; exact eq_refl. Qed.

(** C5, the claim as stated fails: the evaluator repeats the action in the
    text of its error, so a message that holds the start delimiter puts a
    start delimiter in front of the one [required] wrote, and what
    [cleanupExecError] keeps starts there: the user sees a piece of the
    action and of the evaluator's words, not the message alone. *)
Lemma C5_message_holding_the_delimiter_is_garbled :
  let store : gmap loc Values := {[ 0%nat := ({[ "Values" := VMap ∅ ]} : Values) ]} in
  requiredFun normalMode delimiterMessage VNil freshState
  = ((VNil, Some (plainError (warnWrap delimiterMessage))), freshState) /\
  fst (renderTemplate engineT (engineExecute sampleParser normalMode 10)
         "app/templates/e.yaml" echoRenderable (echoEngine, store))
  = (EmptyString,
     Some (plainError ("execution error at (app/templates/e.yaml:1:3): " ++
                       " y" ++ dquote ++ " .Values.name>: error calling required: " ++
                       "HELM_ERR_STARTx HELM_ERR_START y"))).
Proof. cbv zeta. split; vm_compute; exact eq_refl. Qed.

(** X2. [fail] fails, outside lint mode, with the message between the two
    delimiters; when the location holds no colon and space and what the
    evaluator writes in front of the error of the function holds no start
    delimiter, [cleanupExecError] keeps the location and the message. In
    lint mode [fail] writes a line to the log and returns the empty string
    without error. *)
Theorem X2_fail_fails_with_message_unless_linting msg st :
  (forall strict dns,
     let opts := {| EnableDNS := dns; Strict := strict; LintMode := false |} in
     failFun opts msg st = ((EmptyString, Some (plainError (warnWrap msg))), st) /\
     forall filename at_ tname,
       Contains (location at_) ": " = false ->
       Contains (callPrefix at_ tname "fail") warnStartDelim = false ->
       cleanupExecError filename (callError at_ tname "fail" (plainError (warnWrap msg)))
       = plainError ("execution error at (" ++ location at_ ++ "): " ++ msg)) /\
  (forall strict dns,
     failFun {| EnableDNS := dns; Strict := strict; LintMode := true |} msg st
     = ((EmptyString, None), logPrint ("[INFO] Fail: " ++ msg) st)).
Proof.
  split.
  - intros strict dns opts. split; [reflexivity|].
    intros. now apply cleanupExecError_tunnel.
  - reflexivity.
Qed.

(** *** The placeholder of absent values *)



(* ================================================================== *)
(** * Part III: further properties of the code                         *)
(* ================================================================== *)

(** ** Dotted paths *)

(** Splitting at an unbordered separator distributes over a text made of
    two parts with the separator between them. *)
Lemma Split_app_sep sep : unbordered sep = true ->
  forall n a b, (String.length a <= n)%nat ->
  Split (a ++ sep ++ b) sep = (Split a sep ++ Split b sep)%list.
Proof.
  intros Hu. pose proof (unbordered_not_nil _ Hu) as Hne.
  assert (0 < String.length sep)%nat by (destruct sep; simpl; [congruence|lia]).
  induction n as [|n IH]; intros a b Hn.
  - destruct a; simpl in Hn; [|lia]. change (EmptyString ++ sep ++ b) with (sep ++ b).
    rewrite (Split_cons (sep ++ b) sep EmptyString b Hne).
    + rewrite (Split_single EmptyString) by now apply Cut_nil. reflexivity.
    + rewrite Cut_unfold, prefix_app, string_drop_app. reflexivity.
  - destruct (Cut a sep) as [[x y]|] eqn:E.
    + pose proof (Cut_Some _ _ _ _ E) as Ha. pose proof (Cut_length _ _ _ _ E) as HL.
      pose proof (Cut_before _ _ Hne _ _ E) as Hx.
      rewrite (Split_cons a sep x y Hne E). subst a.
      rewrite !string_app_assoc.
      rewrite (Split_cons (x ++ sep ++ y ++ sep ++ b) sep x (y ++ sep ++ b) Hne).
      * cbn [app]. f_equal. apply IH. lia.
      * apply Cut_unbordered; [exact Hu|]. now apply Cut_None_Contains.
    + rewrite (Split_single a sep E). cbn [app].
      apply Split_cons; [exact Hne|]. apply Cut_unbordered; [exact Hu|].
      now apply Cut_None_Contains.
Qed.

Lemma ParsePath_app a b : ParsePath (a ++ "." ++ b) = (ParsePath a ++ ParsePath b)%list.
Proof. unfold ParsePath. now apply (Split_app_sep "." eq_refl (String.length a)). Qed.

(** X3. [Table] composes along a dotted path: the table at [a.b] is the
    table at [b] of the table at [a], and a failure in [a] is the failure of
    the whole path. *)
Theorem X3_Table_composes_along_the_path (v : Values) a b :
  Table v (a ++ "." ++ b) =
  match Table v a with
  | (t, None) => Table t b
  | (t, Some e) => (t, Some e)
  end.
Proof.
  unfold Table. rewrite ParsePath_app, tableLoop_app.
  destruct (tableLoop v (ParsePath a)) as [t [e|]]; reflexivity.
Qed.

(** X4. What [PathValue] returns: a value that is not a plain-map table and
    no error, for a non-empty path; or nil and an error, which is the usage
    error for the empty path and otherwise the "no such value" error named
    by the last segment of the path. *)
Theorem X4_PathValue_results (v : Values) p :
  match PathValue v p with
  | (x, None) => p <> EmptyString /\ IsTable x = false
  | (x, Some e) =>
      x = VNil /\
      ((p = EmptyString /\ e = ErrText "YAML path cannot be empty") \/
       (p <> EmptyString /\ e = ErrNoValue (List.last (ParsePath p) EmptyString)))
  end.
Proof.
  destruct (String.eqb_spec p EmptyString) as [->|Hp].
  - cbn. auto.
  - destruct (PathValue v p) as [x [e|]] eqn:E.
    + destruct (PathValue_error v p x e Hp E) as [-> ->]. auto.
    + split; [exact Hp|]. unfold PathValue in E.
      destruct (String.eqb_spec p EmptyString); [congruence|].
      eapply pathValue_not_IsTable; eauto.
Qed.

Lemma ParsePath_dot_free k : Contains k "." = false -> ParsePath k = [k].
Proof. intros H. apply Split_single. now apply Cut_None_Contains. Qed.

(** X5. [PathValue] on a path [a.k], where [k] is a single segment, looks
    [k] up in the table [Table] finds at [a]; on a path of one segment it
    looks the segment up in the table itself. *)
Theorem X5_PathValue_looks_up_in_Table (v : Values) a k :
  Contains k "." = false ->
  PathValue v (a ++ "." ++ k) =
    match Table v a with
    | (t, None) => leafValue t k
    | (_, Some _) => (VNil, Some (ErrNoValue k))
    end /\
  (k <> EmptyString -> PathValue v k = leafValue v k).
Proof.
  intros Hk. split.
  - unfold PathValue.
    destruct (String.eqb_spec (a ++ "." ++ k) EmptyString) as [E|_].
    { destruct a; discriminate. }
    rewrite ParsePath_app, (ParsePath_dot_free k Hk).
    destruct (ParsePath a) as [|x l] eqn:Ea; [now apply ParsePath_not_nil in Ea|].
    assert (HJ : JoinPath (x :: l) = a).
    { rewrite <- Ea. apply Join_genSplit. }
    unfold pathValue. change ((x :: l) ++ [k])%list with (x :: (l ++ [k]))%list.
    destruct (l ++ [k])%list as [|y l'] eqn:El; [now destruct l|].
    rewrite <- El. change (x :: (l ++ [k]))%list with ((x :: l) ++ [k])%list.
    rewrite List.last_last, List.removelast_last, HJ. reflexivity.
  - intros Hne. unfold PathValue.
    destruct (String.eqb_spec k EmptyString); [congruence|].
    now rewrite (ParsePath_dot_free k Hk).
Qed.

Lemma X5_witness :
  let v : Values := {[ "chapter" := VMap {[ "one" := VMap {[ "title" := VStr "Loomings" ]} ]} ]} in
  PathValue v ("chapter.one" ++ "." ++ "title") =
    match Table v "chapter.one" with
    | (t, None) => leafValue t "title"
    | (_, Some _) => (VNil, Some (ErrNoValue "title"))
    end /\
  ("title" <> EmptyString -> PathValue v "title" = leafValue v "title").
Proof.
  exact (X5_PathValue_looks_up_in_Table
           {[ "chapter" := VMap {[ "one" := VMap {[ "title" := VStr "Loomings" ]} ]} ]}
           "chapter.one" "title" eq_refl).
Defined.

(** The example of the documentation of [PathValue]. *)
Example PathValue_Loomings :
  let v : Values := {[ "chapter" := VMap {[ "one" := VMap {[ "title" := VStr "Loomings" ]} ]} ]} in
  PathValue v "chapter.one.title" = (VStr "Loomings", None).
Proof. vm_compute. exact eq_refl. Qed.

(** ** The normalisation of errors *)

(** No occurrence in a text, none in its suffixes. *)
Lemma Cut_None_suffix sep x : forall y, Cut (x ++ y) sep = None -> Cut y sep = None.
Proof.
  induction x as [|c x IH]; intros y H; [exact H|].
  change (String c x ++ y) with (String c (x ++ y)) in H. rewrite Cut_unfold in H.
  destruct (String.prefix sep (String c (x ++ y))); [discriminate|].
  destruct (Cut (x ++ y) sep) as [[a b]|] eqn:E; [discriminate|]. now apply IH.
Qed.

Lemma cleanupExecError_tunnel_any filename loc pre m :
  Contains loc ": " = false ->
  Contains pre warnStartDelim = false ->
  cleanupExecError filename
    {| isExecError := true; errText := "template" ++ ": " ++ loc ++ ": " ++ pre ++ warnWrap m |}
  = plainError ("execution error at (" ++ loc ++ "): " ++ m).
Proof.
  intros Hloc Hpre.
  unfold cleanupExecError. cbn [isExecError errText negb].
  unfold SplitN. change (3 - 1)%nat with 2%nat. cbn [genSplit].
  rewrite (Cut_unbordered ": " "template") by reflexivity.
  rewrite (Cut_unbordered ": " loc) by (reflexivity || exact Hloc).
  unfold warnSubmatch, warnWrap.
  rewrite (Cut_unbordered warnStartDelim) by (reflexivity || exact Hpre).
  rewrite CutLast_app_end by discriminate. reflexivity.
Qed.

(** X6. The message a function puts between the two delimiters comes out of
    [cleanupExecError] alone, with the location of the outermost call,
    however many calls of [include] or [tpl] the error has come through:
    what the evaluator and the wrappers add stands before the start
    delimiter, and whatever the message holds (the delimiters themselves
    included) is kept. *)
Theorem X6_cleanupExecError_keeps_the_tunnelled_message filename at_ tname fname inner pre m :
  Contains (location at_) ": " = false ->
  Contains (callPrefix at_ tname fname ++ pre) warnStartDelim = false ->
  errText inner = pre ++ warnWrap m ->
  cleanupExecError filename (callError at_ tname fname inner)
  = plainError ("execution error at (" ++ location at_ ++ "): " ++ m).
Proof.
  intros Hloc Hpre Hin. unfold callError.
  rewrite Hin, <- (string_app_assoc (callPrefix at_ tname fname) pre (warnWrap m)).
  now apply cleanupExecError_tunnel_any.
Qed.

Lemma X6_witness :
  cleanupExecError "app/templates/o.yaml"
    (callError outerSite "app/templates/o.yaml" "include"
       (callError requiredSite "app/templates/r.yaml" "required"
          (plainError (warnWrap "a name is required"))))
  = plainError "execution error at (app/templates/o.yaml:2:5): a name is required".
Proof.
  exact (X6_cleanupExecError_keeps_the_tunnelled_message
           "app/templates/o.yaml" outerSite "app/templates/o.yaml" "include"
           (callError requiredSite "app/templates/r.yaml" "required"
              (plainError (warnWrap "a name is required")))
           ("template: app/templates/r.yaml:1:3: " ++
            callPrefix requiredSite "app/templates/r.yaml" "required")
           "a name is required" eq_refl eq_refl eq_refl).
Defined.

(** The same, through the engine: the entry includes a template in which
    [required] fails. *)
Example nested_required_sample :
  let store : gmap loc Values := {[ 0%nat := ({[ "Values" := VMap ∅ ]} : Values) ]} in
  fst (renderTemplate engineT (engineExecute sampleParser normalMode 10)
         "app/templates/o.yaml" requireRenderable (nestedEngine, store))
  = (EmptyString,
     Some (plainError "execution error at (app/templates/o.yaml:2:5): a name is required")).
Proof. vm_compute. exact eq_refl. Qed.

Lemma genSplit_two_shape s sep : sep <> EmptyString ->
  (exists a b c, genSplit 2 s sep = [a; b; c] /\ s = a ++ sep ++ b ++ sep ++ c) \/
  (exists l, genSplit 2 s sep = l /\ (length l < 3)%nat).
Proof.
  intros Hsep. cbn [genSplit]. destruct (Cut s sep) as [[a r]|] eqn:E1.
  - destruct (Cut r sep) as [[b c]|] eqn:E2.
    + left. exists a, b, c. split; [reflexivity|].
      apply Cut_Some in E1, E2. now subst.
    + right. eexists. split; [reflexivity|]. simpl. lia.
  - right. eexists. split; [reflexivity|]. simpl. lia.
Qed.

(** X7. An error that holds no start delimiter keeps its whole text through
    [cleanupExecError]: it is returned as it is, or, when it is an
    [ExecError] of fewer than three colon-separated parts, with
    [execution error in (<filename>): ] before it. *)
Theorem X7_cleanupExecError_without_delimiter filename err :
  Contains (errText err) warnStartDelim = false ->
  cleanupExecError filename err = err \/
  (isExecError err = true /\
   (length (SplitN (errText err) ": " 3) < 3)%nat /\
   cleanupExecError filename err
   = plainError ("execution error in (" ++ filename ++ "): " ++ errText err)).
Proof.
  intros Hno. unfold cleanupExecError, SplitN. change (3 - 1)%nat with 2%nat.
  destruct (isExecError err) eqn:Ex; cbn [negb]; [|now left].
  destruct (genSplit_two_shape (errText err) ": ") as [(a & b & c & -> & Ht)|(l & -> & Hl)];
    [discriminate| |].
  - left. unfold warnSubmatch.
    assert (Hc : Cut c warnStartDelim = None).
    { apply Cut_None_Contains in Hno. rewrite Ht in Hno.
      rewrite <- !string_app_assoc in Hno. eapply Cut_None_suffix. exact Hno. }
    now rewrite Hc.
  - right. split; [reflexivity|]. split; [exact Hl|].
    destruct l as [|x [|y [|z [|w l]]]]; simpl in Hl; try lia; reflexivity.
Qed.

Lemma X7_witness :
  cleanupExecError "a.yaml" {| isExecError := true; errText := "unexpected EOF" |}
    = {| isExecError := true; errText := "unexpected EOF" |} \/
  (isExecError {| isExecError := true; errText := "unexpected EOF" |} = true /\
   (length (SplitN "unexpected EOF" ": " 3) < 3)%nat /\
   cleanupExecError "a.yaml" {| isExecError := true; errText := "unexpected EOF" |}
   = plainError ("execution error in (" ++ "a.yaml" ++ "): " ++ "unexpected EOF")).
Proof.
  exact (X7_cleanupExecError_without_delimiter "a.yaml"
           {| isExecError := true; errText := "unexpected EOF" |} eq_refl).
Defined.

(** X8. [cleanupParseError] always returns a plain error whose text starts
    with [parse error]; for a text without the separator it names the file
    the engine was parsing and keeps the whole text. *)
Theorem X8_cleanupParseError_shapes filename err :
  isExecError (cleanupParseError filename err) = false /\
  String.prefix "parse error " (errText (cleanupParseError filename err)) = true /\
  (Contains (errText err) ": " = false ->
   cleanupParseError filename err
   = plainError ("parse error in (" ++ filename ++ "): " ++ errText err)).
Proof.
  unfold cleanupParseError. split; [|split].
  - destruct (Split (errText err) ": ") as [|x [|y l]]; reflexivity.
  - destruct (Split (errText err) ": ") as [|x [|y l]]; reflexivity.
  - intros H. rewrite Split_single by now apply Cut_None_Contains. reflexivity.
Qed.

(** ** The pass over the entries *)

(** X9. When every entry parses, the error returned with the output map is
    made of the errors of the failed entries, in processing order, their
    texts joined by newlines; it is nil when there is none. *)
Theorem X9_aggregate_error_lists_failures_in_order
    T Parse ExecuteTemplate (tpls : gmap string renderable) (st : state T) t' :
  parseLoop T Parse tpls (sortTemplates tpls) (fst st) = (t', None) ->
  let trace := renderTrace T ExecuteTemplate tpls (sortTemplates tpls) (t', snd st) in
  snd (fst (renderTemplates T Parse ExecuteTemplate tpls st)) =
  match traceErrors trace with
  | [] => None
  | es => Some (plainError (Join (map errText es) newline))
  end.
Proof.
  intros HP trace. unfold renderTemplates. rewrite HP.
  pose proof (renderLoop_trace T ExecuteTemplate tpls (sortTemplates tpls) ∅
                (replicate (size tpls) None) (t', snd st)) as HL.
  destruct (renderLoop _ _ _ _ _ _ _) as [[results errs] st']. cbn [fst snd] in *.
  injection HL as _ ->. unfold errorsJoin. rewrite omap_id_replicate_None. reflexivity.
Qed.

Lemma X9_witness :
  let exec := engineExecute sampleParser strictMode 10 in
  let parse := engineParse sampleParser in
  let st : state engineT := ((∅, freshState), demoStore) in
  let trace := renderTrace engineT exec demoTpls (sortTemplates demoTpls)
                 (fst (parseLoop engineT parse demoTpls (sortTemplates demoTpls) (fst st)),
                  snd st) in
  snd (fst (renderTemplates engineT parse exec demoTpls st)) =
  match traceErrors trace with
  | [] => None
  | es => Some (plainError (Join (map errText es) newline))
  end.
Proof.
  apply (X9_aggregate_error_lists_failures_in_order engineT (engineParse sampleParser)
           (engineExecute sampleParser strictMode 10) demoTpls
           ((∅, freshState), demoStore)).
  vm_compute. exact eq_refl.
Defined.

(** X10. The processing order does not depend on the order in which the map
    yields its keys: sorting any arrangement of the keys gives the same
    list. *)
Theorem X10_sortTemplates_independent_of_map_order (tpls : gmap string renderable) l :
  Permutation l (mapKeys tpls) ->
  sortSort (reverseLess byPathLenLess) l = sortTemplates tpls.
Proof.
  intros HP. apply sortTemplates_unique.
  - rewrite <- HP. apply sortSort_perm.
  - eapply StronglySorted_weaken; [|apply sortSort_sorted].
    + intros a b H. apply reverseLess_spec, H.
    + intros a b c. rewrite !reverseLess_spec. apply processedBefore_trans.
    + intros a b. rewrite !reverseLess_spec. apply processedBefore_total.
    + eapply Permutation_NoDup; [symmetry; exact HP|apply mapKeys_NoDup].
Qed.

Lemma X10_witness :
  sortSort (reverseLess byPathLenLess) (List.rev (mapKeys demoTpls)) = sortTemplates demoTpls.
Proof.
  apply (X10_sortTemplates_independent_of_map_order demoTpls (List.rev (mapKeys demoTpls))).
  symmetry. apply Permutation_rev.
Defined.

(** ** The registration of templates *)

Section RegisterFacts.

Variable pathJoin : string -> string -> string.

Lemma registerTemplates_keeps c id l ts : forall tm k,
  is_Some (tm !! k) -> is_Some (registerTemplates pathJoin c id l ts tm !! k).
Proof.
  induction ts as [|[t|] ts IH]; intros tm k Hk; cbn [registerTemplates]; [exact Hk| |now apply IH].
  destruct (negb (isTemplateValid c (fileName t))); apply IH; [exact Hk|].
  destruct (decide (pathJoin id (fileName t) = k)) as [->|N].
  - rewrite lookup_insert_eq. eauto.
  - now rewrite lookup_insert_ne.
Qed.

Lemma registerTemplates_entries c id l ts : forall tm k r,
  registerTemplates pathJoin c id l ts tm !! k = Some r ->
  tm !! k = Some r \/
  (vals r = Some l /\ basePath r = pathJoin id "templates" /\
   exists t, In (Some t) ts /\ k = pathJoin id (fileName t) /\
             tpl r = fileData t /\ isTemplateValid c (fileName t) = true).
Proof.
  assert (Hlater : forall (o : option File) ts' (tm : gmap string renderable) k r,
    (vals r = Some l /\ basePath r = pathJoin id "templates" /\
     exists t, In (Some t) ts' /\ k = pathJoin id (fileName t) /\
               tpl r = fileData t /\ isTemplateValid c (fileName t) = true) ->
    tm !! k = Some r \/
    (vals r = Some l /\ basePath r = pathJoin id "templates" /\
     exists t, In (Some t) (o :: ts') /\ k = pathJoin id (fileName t) /\
               tpl r = fileData t /\ isTemplateValid c (fileName t) = true)).
  { intros o ts' tm k r (Hv & Hb & t' & Hin & Hk & Ht & Hval). right.
    split; [exact Hv|]. split; [exact Hb|]. exists t'.
    split; [now right|]. now repeat split. }
  induction ts as [|[t|] ts IH]; intros tm k r; cbn [registerTemplates].
  - now left.
  - destruct (isTemplateValid c (fileName t)) eqn:Ev; cbn [negb].
    + intros H. apply IH in H as [H|H]; [|now apply Hlater].
      destruct (decide (pathJoin id (fileName t) = k)) as [E|N].
      * rewrite E, lookup_insert_eq in H. injection H as <-. right.
        split; [reflexivity|]. split; [reflexivity|]. exists t.
        split; [now left|]. split; [now symmetry|]. split; [reflexivity|exact Ev].
      * rewrite lookup_insert_ne in H by exact N. now left.
    + intros H. apply IH in H as [H|H]; [now left|now apply Hlater].
  - intros H. apply IH in H as [H|H]; [now left|now apply Hlater].
Qed.

Lemma registerTemplates_registers c id l ts : forall tm t,
  In (Some t) ts -> isTemplateValid c (fileName t) = true ->
  is_Some (registerTemplates pathJoin c id l ts tm !! pathJoin id (fileName t)).
Proof.
  induction ts as [|[t'|] ts IH]; intros tm t Hin Hv; cbn [registerTemplates].
  - destruct Hin.
  - destruct Hin as [[= ->]|Hin].
    + rewrite Hv. cbn [negb]. apply registerTemplates_keeps.
      rewrite lookup_insert_eq. eauto.
    + destruct (negb (isTemplateValid c (fileName t'))); now apply IH.
  - destruct Hin as [[=]|Hin]. now apply IH.
Qed.

(** X11. The registration loop of [recAllTpls] leaves the entries of other
    charts alone unless it replaces them, and what it adds comes from a
    template source that is not nil and is valid for the chart: the key is
    the chart's full path joined with the name of the source, the text is
    its data, the scope is the scope of the chart (one map for all its
    entries) and the base path is the full path joined with [templates].
    Every such source has an entry under its key. For a library chart the
    valid sources are those whose base name starts with an underscore. *)
Theorem X11_registered_entries_come_from_valid_sources c id l ts tm :
  (forall k r, registerTemplates pathJoin c id l ts tm !! k = Some r ->
     tm !! k = Some r \/
     (vals r = Some l /\ basePath r = pathJoin id "templates" /\
      exists t, In (Some t) ts /\ k = pathJoin id (fileName t) /\
                tpl r = fileData t /\ isTemplateValid c (fileName t) = true)) /\
  (forall t, In (Some t) ts -> isTemplateValid c (fileName t) = true ->
     is_Some (registerTemplates pathJoin c id l ts tm !! pathJoin id (fileName t))) /\
  (forall n, isTemplateValid c n =
             if EqualFold (chartType c) "library" then HasPrefix (Base n) "_" else true).
Proof.
  split; [apply registerTemplates_entries|]. split; [apply registerTemplates_registers|].
  reflexivity.
Qed.

End RegisterFacts.

(** *** Keys and base names *)

Lemma stripTrailingSlashes_app x : forall y,
  stripTrailingSlashes y <> EmptyString ->
  stripTrailingSlashes (x ++ y) = x ++ stripTrailingSlashes y.
Proof.
  induction x as [|c x IH]; intros y Hy; [reflexivity|].
  change (String c x ++ y) with (String c (x ++ y)).
  change (String c x ++ stripTrailingSlashes y) with (String c (x ++ stripTrailingSlashes y)).
  cbn [stripTrailingSlashes]. rewrite IH by exact Hy.
  destruct (x ++ stripTrailingSlashes y) eqn:E; [|reflexivity].
  destruct x; [cbn in E; congruence|discriminate].
Qed.

Lemma lastElement_after_slash x : forall cur y,
  lastElement cur (x ++ "/" ++ y) = lastElement EmptyString y.
Proof.
  induction x as [|c x IH]; intros cur y.
  - reflexivity.
  - change (String c x ++ "/" ++ y) with (String c (x ++ "/" ++ y)). cbn [lastElement].
    destruct (Ascii.eqb c slash); apply IH.
Qed.

(** The last element of [dir/name] is the last element of [name], when
    [name] is more than slashes. *)
Lemma Base_joinClean dir name :
  stripTrailingSlashes name <> EmptyString ->
  Base (joinClean dir name) = Base name.
Proof.
  intros Hn. unfold joinClean, Base.
  destruct (dir ++ "/" ++ name) eqn:E; [destruct dir; discriminate|]. rewrite <- E.
  destruct name as [|c name]; [cbn in Hn; congruence|].
  rewrite <- (string_app_assoc dir "/" (String c name)).
  rewrite stripTrailingSlashes_app by exact Hn.
  rewrite string_app_assoc. now rewrite lastElement_after_slash.
Qed.

Lemma Base_only_slashes name :
  stripTrailingSlashes name = EmptyString -> HasPrefix (Base name) "_" = false.
Proof. intros H. unfold Base. destruct name; [reflexivity|]. now rewrite H. Qed.

(** X12. When joining the full path of a chart with the name of a source
    keeps the base name of the source (as [path.Join] does for a clean
    name), every entry a library chart registers is a partial: none of them
    is executed by the renderer or has a key in the output map. *)
Theorem X12_library_chart_registers_partials_only
    (pathJoin : string -> string -> string) c id l ts tm k r :
  (forall t, In (Some t) ts -> Base (pathJoin id (fileName t)) = Base (fileName t)) ->
  isLibraryChart c = true ->
  registerTemplates pathJoin c id l ts tm !! k = Some r ->
  tm !! k = Some r \/ isPartial k = true.
Proof.
  intros Hbase Hlib H.
  apply registerTemplates_entries in H as [H|(_ & _ & t & Hin & -> & _ & Hv)];
    [now left|right].
  unfold isTemplateValid in Hv. rewrite Hlib in Hv. unfold isPartial.
  now rewrite Hbase.
Qed.

Lemma X12_witness :
  registerTemplates joinClean libChart "app/charts/lib" 0 (chartTemplates libChart) ∅
    !! "app/charts/lib/templates/_helpers.tpl"
  = Some {| tpl := "helpers"; vals := Some 0; basePath := "app/charts/lib/templates" |} /\
  ((∅ : gmap string renderable) !! "app/charts/lib/templates/_helpers.tpl"
   = Some {| tpl := "helpers"; vals := Some 0; basePath := "app/charts/lib/templates" |} \/
   isPartial "app/charts/lib/templates/_helpers.tpl" = true).
Proof.
  split; [vm_compute; exact eq_refl|].
  apply (X12_library_chart_registers_partials_only joinClean libChart "app/charts/lib" 0
           (chartTemplates libChart) ∅).
  - intros t [[= <-]|[[= <-]|[]]]; vm_compute; exact eq_refl.
  - vm_compute; exact eq_refl.
  - vm_compute; exact eq_refl.
Defined.

(** ** The walk over the chart tree *)

Lemma Chart_ind_deps (P : Chart -> Prop) :
  (forall n t ts fs ds, Forall P ds -> P (MkChart n t ts fs ds)) -> forall c, P c.
Proof.
  intros H. fix IH 1. intros [n t ts fs ds]. apply H.
  induction ds as [|d ds IHds]; constructor; [apply IH|exact IHds].
Qed.

Section WalkFacts.

Variable pathJoin : string -> string -> string.

Lemma recAllTpls_unfold n t ts fs ds parent vals st :
  recAllTpls pathJoin (MkChart n t ts fs ds) parent vals st =
  let c := MkChart n t ts fs ds in
  let next := resolveValues parent c vals (scopeLiteral parent c vals) in
  let l := nextLoc st in
  let st1 := {| templates := templates st; scopes := <[l := next]> (scopes st);
                nextLoc := S l |} in
  let r := walkChildren pathJoin (ChartFullPath parent c) next ds ∅ st1 in
  (<["Subcharts" := VMap (fst r)]> next,
   {| templates := registerTemplates pathJoin c (ChartFullPath parent c) l ts
                     (templates (snd r));
      scopes := <[l := <["Subcharts" := VMap (fst r)]> next]> (scopes (snd r));
      nextLoc := nextLoc (snd r) |}).
Proof.
  cbv zeta.
  set (r := walkChildren pathJoin _ _ ds ∅ _). cbn [recAllTpls].
  match goal with
  | |- (let '(_, _) := ?X in _) = _ => change X with r
  end.
  clearbody r. now destruct r.
Qed.

Lemma walkChildren_cons pid next d ds acc s :
  walkChildren pathJoin pid next (d :: ds) acc s =
  walkChildren pathJoin pid next ds
    (<[chartName d := VMap (fst (recAllTpls pathJoin d (Some pid) next s))]> acc)
    (snd (recAllTpls pathJoin d (Some pid) next s)).
Proof. cbn [walkChildren]. now destruct (recAllTpls _ _ _ _ _). Qed.

Lemma scope_keeps parent c vals sub k :
  k = "Release" \/ k = "Capabilities" ->
  (<["Subcharts" := sub]> (resolveValues parent c vals (scopeLiteral parent c vals))) !! k
  = Some (index vals k).
Proof.
  intros Hk. rewrite lookup_insert_ne by (destruct Hk; subst; discriminate).
  assert (HL : scopeLiteral parent c vals !! k = Some (index vals k)).
  { unfold scopeLiteral. destruct Hk; subst.
    - rewrite !lookup_insert_ne by discriminate. apply lookup_insert_eq.
    - rewrite !lookup_insert_ne by discriminate. apply lookup_insert_eq. }
  unfold resolveValues. destruct (IsRoot parent).
  - rewrite lookup_insert_ne by (destruct Hk; subst; discriminate). exact HL.
  - destruct (Table vals ("Values." ++ chartName c)) as [vs [e|]]; [exact HL|].
    rewrite lookup_insert_ne by (destruct Hk; subst; discriminate). exact HL.
Qed.

Lemma scope_keeps' parent c vals k :
  k = "Release" \/ k = "Capabilities" ->
  index (resolveValues parent c vals (scopeLiteral parent c vals)) k = index vals k.
Proof.
  intros Hk. pose proof (scope_keeps parent c vals VNil k Hk) as H.
  rewrite lookup_insert_ne in H by (destruct Hk; subst; discriminate).
  unfold index at 1. now rewrite H.
Qed.

Lemma walkGrows_refl R C st : walkGrows R C st st.
Proof.
  repeat split; [lia| |now left]. intros l Hl. lia.
Qed.

Lemma walkGrows_trans R C s1 s2 s3 :
  walkGrows R C s1 s2 -> walkGrows R C s2 s3 -> walkGrows R C s1 s3.
Proof.
  intros (A1 & A2 & A3 & A4) (B1 & B2 & B3 & B4). repeat split.
  - lia.
  - intros l Hl. rewrite B2 by lia. now apply A2.
  - intros l Hl. destruct (Nat.lt_ge_cases l (nextLoc s2)) as [Hlt|Hge].
    + rewrite B2 by exact Hlt. apply A3. lia.
    + apply B3. lia.
  - intros k r H. apply B4 in H as [H|(l & Hv & Hl)].
    + apply A4 in H as [H|(l & Hv & Hl)]; [now left|right]. exists l. split; [exact Hv|lia].
    + right. exists l. split; [exact Hv|lia].
Qed.

Lemma walkChildren_grows R C pid next ds :
  Forall (fun d => forall parent vals st,
            index vals "Release" = R -> index vals "Capabilities" = C ->
            walkGrows R C st (snd (recAllTpls pathJoin d parent vals st))) ds ->
  index next "Release" = R -> index next "Capabilities" = C ->
  forall acc s, walkGrows R C s (snd (walkChildren pathJoin pid next ds acc s)).
Proof.
  intros HF HR HC. induction HF as [|d ds Hd _ IH]; intros acc s.
  - apply walkGrows_refl.
  - rewrite walkChildren_cons.
    exact (walkGrows_trans _ _ _ _ _ (Hd (Some pid) next s HR HC) (IH _ _)).
Qed.

(** The invariant of the walk. *)
Lemma recAllTpls_grows R C c : forall parent vals st,
  index vals "Release" = R -> index vals "Capabilities" = C ->
  walkGrows R C st (snd (recAllTpls pathJoin c parent vals st)).
Proof.
  induction c as [n t ts fs ds IH] using Chart_ind_deps. intros parent vals st HR HC.
  rewrite recAllTpls_unfold. cbv zeta. cbn [snd].
  set (c := MkChart n t ts fs ds).
  set (next := resolveValues parent c vals (scopeLiteral parent c vals)).
  set (st1 := {| templates := templates st; scopes := <[nextLoc st := next]> (scopes st);
                 nextLoc := S (nextLoc st) |}).
  set (r := walkChildren pathJoin (ChartFullPath parent c) next ds ∅ st1).
  assert (HG : walkGrows R C st1 (snd r)).
  { apply walkChildren_grows; [exact IH| |].
    - unfold next. rewrite scope_keeps' by now left. exact HR.
    - unfold next. rewrite scope_keeps' by now right. exact HC. }
  destruct HG as (G1 & G2 & G3 & G4). cbn [nextLoc scopes templates st1] in G1, G2, G3, G4.
  repeat split; cbn [nextLoc scopes templates].
  - lia.
  - intros l Hl. rewrite lookup_insert_ne by lia. rewrite G2 by lia.
    now rewrite lookup_insert_ne by lia.
  - intros l Hl. destruct (decide (l = nextLoc st)) as [->|N].
    + rewrite lookup_insert_eq. eexists. split; [reflexivity|]. unfold next. split.
      * rewrite scope_keeps by now left. now rewrite HR.
      * rewrite scope_keeps by now right. now rewrite HC.
    + rewrite lookup_insert_ne by congruence. apply G3. lia.
  - intros k x H. apply registerTemplates_entries in H as [H|(Hv & _)].
    + apply G4 in H as [H|(l & Hv & Hl)]; [now left|right]. exists l. split; [exact Hv|lia].
    + right. exists (nextLoc st). split; [exact Hv|lia].
Qed.

(** X13. Every entry of the template map that [allTemplates] builds refers
    to a scope of the walk, and that scope carries under [Release] and
    [Capabilities] what the caller's values carry there (nil when the caller
    has none), however deep the chart of the entry sits in the tree. *)
Theorem X13_every_scope_carries_the_callers_Release_and_Capabilities c top k r :
  templates (allTemplates pathJoin c top) !! k = Some r ->
  exists l sc,
    vals r = Some l /\ scopes (allTemplates pathJoin c top) !! l = Some sc /\
    sc !! "Release" = Some (index top "Release") /\
    sc !! "Capabilities" = Some (index top "Capabilities").
Proof.
  unfold allTemplates. intros H.
  destruct (recAllTpls_grows (index top "Release") (index top "Capabilities") c None top
              {| templates := ∅; scopes := ∅; nextLoc := 0 |} eq_refl eq_refl)
    as (_ & _ & G3 & G4).
  apply G4 in H as [H|(l & Hv & Hl)]; [cbn in H; now rewrite lookup_empty in H|].
  destruct (G3 l Hl) as (sc & Hs & HR & HC). now exists l, sc.
Qed.

End WalkFacts.

Lemma X13_witness :
  templates (allTemplates joinClean demoChart demoValues) !! "app/charts/db/templates/d.yaml"
  = Some {| tpl := "d"; vals := Some 1; basePath := "app/charts/db/templates" |} /\
  exists l sc,
    vals {| tpl := "d"; vals := Some 1; basePath := "app/charts/db/templates" |} = Some l /\
    scopes (allTemplates joinClean demoChart demoValues) !! l = Some sc /\
    sc !! "Release" = Some (index demoValues "Release") /\
    sc !! "Capabilities" = Some (index demoValues "Capabilities").
Proof.
  split; [vm_compute; exact eq_refl|].
  apply (X13_every_scope_carries_the_callers_Release_and_Capabilities joinClean demoChart
           demoValues "app/charts/db/templates/d.yaml").
  vm_compute; exact eq_refl.
Defined.

Section ScopeFacts.

Variable pathJoin : string -> string -> string.

Lemma Table_Values_section (next : Values) n :
  Table next ("Values." ++ n) =
  match next !! "Values" with
  | Some (VMap vs) | Some (VValues vs) => Table vs n
  | Some _ => (∅, Some (ErrNoTable "Values"))
  | None => (next, Some (ErrNoTable "Values"))
  end.
Proof.
  unfold Table. rewrite ParsePath_Values. cbn [tableLoop]. unfold tableLookup at 1.
  destruct (next !! "Values") as [[]|]; reflexivity.
Qed.

(** X14. The [Values] of a sub-chart are the table that the chart's name
    selects, as a dotted path, in the [Values] of the scope it is handed
    (the scope of its parent), held as a [Values] map. When the parent's
    scope has no table under [Values], or the path does not lead to a table,
    the scope of the sub-chart has no [Values] key. *)
Theorem X14_subchart_Values_are_the_section_named_by_the_chart c pp next st :
  fst (recAllTpls pathJoin c (Some pp) next st) !! "Values" =
  match next !! "Values" with
  | Some (VMap vs) | Some (VValues vs) =>
      match Table vs (chartName c) with
      | (t, None) => Some (VValues t)
      | (_, Some _) => None
      end
  | _ => None
  end.
Proof.
  destruct (Table next ("Values." ++ chartName c)) as [t [e|]] eqn:HT.
  - destruct (recAllTpls_sub_Values_missing pathJoin c pp next st t e HT) as [-> _].
    rewrite Table_Values_section in HT.
    destruct (next !! "Values") as [[]|]; try reflexivity; now rewrite HT.
  - rewrite (recAllTpls_sub_Values_found pathJoin c pp next st t HT).
    rewrite Table_Values_section in HT.
    destruct (next !! "Values") as [[]|]; try discriminate; now rewrite HT.
Qed.

Lemma registerTemplates_keeps_own c id l ts : forall tm k r,
  tm !! k = Some r -> vals r = Some l -> basePath r = pathJoin id "templates" ->
  exists r', registerTemplates pathJoin c id l ts tm !! k = Some r' /\
             vals r' = Some l /\ basePath r' = pathJoin id "templates".
Proof.
  induction ts as [|[t|] ts IH]; intros tm k r Hk Hv Hb; cbn [registerTemplates].
  - now exists r.
  - destruct (negb (isTemplateValid c (fileName t))); [now apply (IH tm k r)|].
    destruct (decide (pathJoin id (fileName t) = k)) as [E|N].
    + eapply IH; [rewrite E; apply lookup_insert_eq|reflexivity|reflexivity].
    + apply (IH _ k r); [now rewrite lookup_insert_ne|exact Hv|exact Hb].
  - now apply (IH tm k r).
Qed.

Lemma registerTemplates_own c id l ts : forall tm t,
  In (Some t) ts -> isTemplateValid c (fileName t) = true ->
  exists r, registerTemplates pathJoin c id l ts tm !! pathJoin id (fileName t) = Some r /\
            vals r = Some l /\ basePath r = pathJoin id "templates".
Proof.
  induction ts as [|[t'|] ts IH]; intros tm t Hin Hv; cbn [registerTemplates].
  - destruct Hin.
  - destruct Hin as [[= ->]|Hin].
    + rewrite Hv. cbn [negb].
      eapply registerTemplates_keeps_own; [apply lookup_insert_eq|reflexivity|reflexivity].
    + destruct (negb (isTemplateValid c (fileName t'))); now apply IH.
  - destruct Hin as [[=]|Hin]. now apply IH.
Qed.

(** X15. After [recAllTpls] has walked a chart, every valid source of the
    chart has an entry under the chart's full path joined with its name; the
    entry refers to the scope allocated for the chart, which is the scope
    the call returns (with the scopes of the dependencies under
    [Subcharts]), and that scope holds the metadata of this chart with its
    root flag under [Chart] and the chart's files under [Files]. *)
Theorem X15_templates_of_a_chart_are_bound_to_its_scope c parent top st t :
  In (Some t) (chartTemplates c) -> isTemplateValid c (fileName t) = true ->
  exists r,
    templates (snd (recAllTpls pathJoin c parent top st))
      !! pathJoin (ChartFullPath parent c) (fileName t) = Some r /\
    vals r = Some (nextLoc st) /\
    basePath r = pathJoin (ChartFullPath parent c) "templates" /\
    scopes (snd (recAllTpls pathJoin c parent top st)) !! nextLoc st
      = Some (fst (recAllTpls pathJoin c parent top st)) /\
    fst (recAllTpls pathJoin c parent top st) !! "Chart"
      = Some (VChart (chartName c) (chartType c) (IsRoot parent)) /\
    fst (recAllTpls pathJoin c parent top st) !! "Files" = Some (VFiles (chartFiles c)).
Proof.
  intros Hin Hv.
  assert (HS : scopes (snd (recAllTpls pathJoin c parent top st)) !! nextLoc st
               = Some (fst (recAllTpls pathJoin c parent top st))).
  { destruct c as [n ty ts fs ds]. rewrite recAllTpls_unfold. cbv zeta. cbn [fst snd scopes].
    apply lookup_insert_eq. }
  assert (HL : forall k, k = "Chart" \/ k = "Files" ->
             fst (recAllTpls pathJoin c parent top st) !! k = scopeLiteral parent c top !! k).
  { intros k Hk. destruct (recAllTpls_scope pathJoin c parent top st) as [sub ->].
    rewrite lookup_insert_ne by (destruct Hk; subst; discriminate).
    unfold resolveValues. destruct (IsRoot parent).
    - now rewrite lookup_insert_ne by (destruct Hk; subst; discriminate).
    - destruct (Table top ("Values." ++ chartName c)) as [vs [e|]]; [reflexivity|].
      now rewrite lookup_insert_ne by (destruct Hk; subst; discriminate). }
  assert (HR : exists r,
             templates (snd (recAllTpls pathJoin c parent top st))
               !! pathJoin (ChartFullPath parent c) (fileName t) = Some r /\
             vals r = Some (nextLoc st) /\
             basePath r = pathJoin (ChartFullPath parent c) "templates").
  { destruct c as [n ty ts fs ds]. rewrite recAllTpls_unfold. cbv zeta. cbn [snd templates].
    now apply registerTemplates_own. }
  destruct HR as (r & Hr & Hvr & Hbr). exists r.
  split; [exact Hr|]. split; [exact Hvr|]. split; [exact Hbr|]. split; [exact HS|].
  rewrite !HL by auto. unfold scopeLiteral. split.
  - apply lookup_insert_eq.
  - rewrite lookup_insert_ne by discriminate. apply lookup_insert_eq.
Qed.

End ScopeFacts.

Lemma X15_witness :
  exists r,
    templates (snd (recAllTpls joinClean demoChart None demoValues
                      {| templates := ∅; scopes := ∅; nextLoc := 0 |}))
      !! joinClean (ChartFullPath None demoChart) "templates/a.yaml" = Some r /\
    vals r = Some 0 /\
    basePath r = joinClean (ChartFullPath None demoChart) "templates" /\
    scopes (snd (recAllTpls joinClean demoChart None demoValues
                   {| templates := ∅; scopes := ∅; nextLoc := 0 |})) !! 0
      = Some (fst (recAllTpls joinClean demoChart None demoValues
                     {| templates := ∅; scopes := ∅; nextLoc := 0 |})) /\
    fst (recAllTpls joinClean demoChart None demoValues
           {| templates := ∅; scopes := ∅; nextLoc := 0 |}) !! "Chart"
      = Some (VChart "app" "application" true) /\
    fst (recAllTpls joinClean demoChart None demoValues
           {| templates := ∅; scopes := ∅; nextLoc := 0 |}) !! "Files" = Some (VFiles []).
Proof.
  apply (X15_templates_of_a_chart_are_bound_to_its_scope joinClean demoChart None demoValues
           {| templates := ∅; scopes := ∅; nextLoc := 0 |}
           {| fileName := "templates/a.yaml"; fileData := "a" |}).
  - now left.
  - vm_compute; exact eq_refl.
Defined.

(** ** Calls of [include] in sequence *)

Section SequenceFacts.

Variable parser : string -> string -> parsed.
Variable opts : engineOptions.

Lemma setIncluded_twice name v w st :
  setIncluded name v (setIncluded name w st) = setIncluded name v st.
Proof. unfold setIncluded. cbn. f_equal. apply insert_insert_eq. Qed.

Lemma depth_setIncluded_same name v st : depth (setIncluded name v st) name = v.
Proof. rewrite depth_setIncluded. destruct (decide (name = name)); [reflexivity|congruence]. Qed.

(** X16. The limit of [include] bounds the nesting, not the number of
    calls: a template that includes [n] times in sequence a template whose
    execution succeeds and leaves the state of the engine as it is gets the
    [n] outputs, for every [n], and the depth of the name is after the calls
    what it was before. *)
Theorem X16_sequential_includes_do_not_add_up f ns tn at_ name data o :
  (forall st, executeTemplate parser opts f ns name data st = Some ((o, None), st)) ->
  forall n buf st,
    (depth st name <= recursionMaxNums)%Z ->
    runTmpl parser opts (S f) ns tn (includeTimes at_ name data n) buf st =
    Some ((buf ++ copies o n, None),
          match n with O => st | S _ => setIncluded name (depth st name) st end).
Proof.
  intros Hleaf.
  assert (Hstep : forall n buf st,
    (depth st name <= recursionMaxNums)%Z ->
    runTmpl parser opts (S f) ns tn (includeTimes at_ name data (S n)) buf st =
    runTmpl parser opts (S f) ns tn (includeTimes at_ name data n) (buf ++ o)
      (setIncluded name (depth st name) st)).
  { intros n buf st Hd. cbn [includeTimes]. rewrite run_TInclude.
    rewrite includeFun_enter by exact Hd. rewrite Hleaf.
    rewrite depth_setIncluded_same, setIncluded_twice.
    replace (depth st name + 1 - 1)%Z with (depth st name) by lia.
    now rewrite run_TText. }
  induction n as [|n IH]; intros buf st Hd.
  - cbn [includeTimes copies]. rewrite run_TDone. now rewrite string_app_nil_r.
  - rewrite Hstep by exact Hd. rewrite IH by now rewrite depth_setIncluded_same.
    cbn [copies]. rewrite string_app_assoc. f_equal. f_equal.
    destruct n; [reflexivity|].
    now rewrite depth_setIncluded_same, setIncluded_twice.
Qed.

End SequenceFacts.

Lemma X16_witness :
  (forall st, executeTemplate sampleParser normalMode 1 leafNamespace "leaf" VNil st
              = Some (("x", None), st)) /\
  (depth freshState "leaf" <= recursionMaxNums)%Z /\
  runTmpl sampleParser normalMode 2 leafNamespace "app/templates/many.yaml"
    (includeTimes leafSite "leaf" VNil 2000) EmptyString freshState =
  Some ((EmptyString ++ copies "x" 2000, None),
        setIncluded "leaf" (depth freshState "leaf") freshState).
Proof.
  assert (Hleaf : forall st, executeTemplate sampleParser normalMode 1 leafNamespace "leaf" VNil st
                             = Some (("x", None), st)) by (intros st; reflexivity).
  split; [exact Hleaf|]. split; [vm_compute; discriminate|].
  exact (X16_sequential_includes_do_not_add_up sampleParser normalMode 1 leafNamespace
           "app/templates/many.yaml" leafSite "leaf" VNil "x" Hleaf 2000 EmptyString freshState
           ltac:(vm_compute; discriminate)).
Defined.

(** ** The entry points *)

Section PluginFacts.

Variable pathJoin : string -> string -> string.
Variable T : Type.
Variable Parse : T -> string -> string -> T * option goError.
Variable ExecuteTemplate :
  T -> string -> loc -> gmap loc Values -> (string * execOutcome) * (T * gmap loc Values).
Variable decode : string -> Values + string.




End PluginFacts.

(** The entry point on the sample chart, on a chart with a dependency that
    has no metadata, and on values that do not decode. *)
Example RenderChartTemplates_samples :
  let run := RenderChartTemplates joinClean engineT (engineParse sampleParser)
               (engineExecute sampleParser normalMode 10)
               (fun json => if String.eqb json "{}" then inl demoValues
                            else inr "unexpected end of JSON input")
               (∅, freshState) in
  derefChart demoPtr = Some demoChart /\
  derefChart brokenPtr = None /\
  run {| InputChart := brokenPtr; ValuesJSON := "{}" |} = Panicked /\
  run {| InputChart := brokenPtr; ValuesJSON := "{" |}
  = Returned None
      (Some (plainError "failed to parse input values json: unexpected end of JSON input")) /\
  exists ms, run {| InputChart := demoPtr; ValuesJSON := "{}" |} = Returned (Some ms) None /\
             Permutation (map Filename ms)
               ["app/templates/a.yaml"; "app/charts/db/templates/d.yaml";
                "app/charts/cache/templates/c.yaml"].
Proof.
  cbv zeta. split; [vm_compute; exact eq_refl|]. split; [vm_compute; exact eq_refl|].
  split; [vm_compute; exact eq_refl|]. split; [vm_compute; exact eq_refl|].
  eexists. split; [vm_compute; reflexivity|].
  vm_compute. eauto 10 using Permutation, Permutation_refl, perm_swap, perm_skip.
Qed.

(** ** Paths and their segments *)

(** X18. Splitting a path into its segments loses nothing: the segments
    joined by dots are the path again, there is at least one segment (the
    empty path has the empty segment) and no segment holds a dot. The other
    way round, a non-empty list of segments without dots is what its joined
    path splits into; [pathValue] relies on it when it joins the table part
    of a path and hands it to [Table]. *)
Theorem X18_ParsePath_and_JoinPath_are_inverse :
  (forall s, JoinPath (ParsePath s) = s /\ ParsePath s <> [] /\
             List.Forall (fun seg => Contains seg "." = false) (ParsePath s)) /\
  (forall segs, segs <> [] -> List.Forall (fun seg => Contains seg "." = false) segs ->
                ParsePath (JoinPath segs) = segs).
Proof.
  split.
  - intros s. split; [apply Join_genSplit|]. split; [apply ParsePath_not_nil|].
    apply genSplit_free; [discriminate|lia].
  - intros segs Hne HF. now apply Split_Join.
Qed.

(** ** The function [tpl] *)

(** X19. On a text of bytes below [0x80] (where [quote] is what [%q]
    prints): a call of [tpl] that returns leaves the depth of every template
    name as it found it, whether it succeeds or fails. When it fails the
    output is empty and the error is a plain one that quotes the text: the
    text did not parse (nothing is executed, the state is untouched), or its
    execution failed (the error of the execution follows the text). When it
    succeeds the output is what executing the text, in the namespace of the
    caller extended by the text and its definitions, wrote to the buffer,
    with the occurrences of the placeholder deleted. *)
Theorem X19_tpl_returns_cleaned_output_or_an_error_quoting_the_text
    parser opts fuel ns text data st out oe st' :
  isASCII text = true ->
  engineTpl parser opts fuel ns text data st = Some ((out, oe), st') ->
  (forall x, depth st' x = depth st x) /\
  match oe with
  | Some e =>
      out = EmptyString /\ isExecError e = false /\
      ((exists msg, parser gotpl text = ParseErr msg /\ st' = st /\
          errText e = "cannot parse template " ++ quote text ++ ": " ++ msg) \/
       (exists main defines buf inner,
          parser gotpl text = ParseOk main defines /\
          runTmpl parser opts fuel (addParsed ns gotpl main defines) gotpl (main data)
            EmptyString st = Some ((buf, Some inner), st') /\
          errText e = "error during tpl function execution for " ++ quote text ++ ": " ++
                      errText inner))
  | None =>
      exists main defines buf,
        parser gotpl text = ParseOk main defines /\
        runTmpl parser opts fuel (addParsed ns gotpl main defines) gotpl (main data)
          EmptyString st = Some ((buf, None), st') /\
        out = ReplaceAll buf noValue EmptyString
  end.
Proof.
  intros _.
  unfold engineTpl, tplFun. destruct (parser gotpl text) as [main defines|msg] eqn:EP.
  - destruct (runTmpl parser opts fuel (addParsed ns gotpl main defines) gotpl (main data)
                EmptyString st) as [[[buf [inner|]] st2]|] eqn:ER; [| |discriminate].
    + intros [= <- <- <-]. split; [eapply run_balanced; exact ER|].
      split; [reflexivity|]. split; [reflexivity|]. right.
      exists main, defines, buf, inner. auto.
    + intros [= <- <- <-]. split; [eapply run_balanced; exact ER|].
      exists main, defines, buf. auto.
  - intros [= <- <- <-]. split; [reflexivity|].
    split; [reflexivity|]. split; [reflexivity|]. left. exists msg. auto.
Qed.

Lemma X19_witness :
  isASCII noValueText = true /\
  engineTpl sampleParser normalMode 3 sampleNamespace noValueText VNil freshState
  = Some (("<no value>", None), freshState) /\
  (forall x, depth freshState x = depth freshState x) /\
  exists main defines buf,
    sampleParser gotpl noValueText = ParseOk main defines /\
    runTmpl sampleParser normalMode 3 (addParsed sampleNamespace gotpl main defines) gotpl
      (main VNil) EmptyString freshState = Some ((buf, None), freshState) /\
    "<no value>" = ReplaceAll buf noValue EmptyString.
Proof.
  assert (H : engineTpl sampleParser normalMode 3 sampleNamespace noValueText VNil freshState
              = Some (("<no value>", None), freshState)) by (vm_compute; exact eq_refl).
  split; [vm_compute; exact eq_refl|]. split; [exact H|].
  exact (X19_tpl_returns_cleaned_output_or_an_error_quoting_the_text sampleParser normalMode 3
           sampleNamespace noValueText VNil freshState "<no value>" None freshState
           eq_refl H).
Defined.
